(** * Singly linked list (src/structs/singlyLinkedList.ts)

    A shallow embedding of the [SinglyLinkedList] class.  JavaScript objects
    are shared, mutable cells, and the class keeps two references ([#head]
    and [#tail]) into the same chain, so the nodes live in an explicit store:
    a node reference is a location, the store is the list of all nodes ever
    allocated ([new Node(data)] appends one), and [null] is [None].  A
    reference held by the program always denotes an allocated node; the
    model reads [None] at a location that was never allocated, which no
    state built by the operations contains.

    Loops whose exit depends on the shape of the chain ([pop], [removeTail],
    [toArray]) take a fuel argument that bounds the number of evaluations of
    the loop condition; [None] then means "the loop is still running after
    that many tests".  The loop of [get] counts up to its index and is
    structural.  Indices and the length counter are integers ([Z]): the
    counter is decremented without a floor by the source. *)

From Stdlib Require Import ZArith Lia.
From stdpp Require Import base option list.

Local Open Scope Z_scope.

(** ** Store *)

Abbreviation loc := nat.

Record Node (A : Type) := mkNode { data : A; next : option loc }.
Arguments mkNode {A} _ _.
Arguments data {A} _.
Arguments next {A} _.

Module SinglyLinkedList.

Record t (A : Type) := mkList {
  heap : list (Node A);      (* every node allocated so far *)
  head_ : option loc;        (* #head *)
  tail_ : option loc;        (* #tail *)
  length_ : Z                (* #length *)
}.
Arguments mkList {A} _ _ _ _.
Arguments heap {A} _.
Arguments head_ {A} _.
Arguments tail_ {A} _.
Arguments length_ {A} _.

Section Operations.
Context {A : Type}.
Implicit Types (h : list (Node A)) (s : t A) (p q : loc) (index : Z).

(** [p.next] *)
Definition next_of h p : option loc :=
  match h !! p with Some n => next n | None => None end.

(** [p.data] *)
Definition data_of h p : option A := data <$> h !! p.

(** [p.next = v] *)
Definition set_next h p (v : option loc) : list (Node A) :=
  alter (fun n => mkNode (data n) v) p h.

(** [p.data = d] *)
Definition set_data h p (d : A) : list (Node A) :=
  alter (fun n => mkNode d (next n)) p h.

(** [new Node(data)]: the new cell has [next = null]; its reference is the
    next unused location. *)
Definition new_Node h (d : A) : list (Node A) * loc :=
  (h ++ [mkNode d None], Datatypes.length h).

(** [constructor ()] *)
Definition constructor : t A := mkList [] None None 0.

(** [push (data)] *)
Definition push (d : A) s : t A :=
  let '(h1, node) := new_Node (heap s) d in
  let hd := match head_ s with None => Some node | Some x => Some x end in
  let h2 := match tail_ s with Some tl => set_next h1 tl (Some node) | None => h1 end in
  mkList h2 hd (Some node) (length_ s + 1).

(** The scan of [pop]:
    [while (newTail.next !== this.#tail && newTail.next !== null)]. *)
Fixpoint pop_scan (fuel : nat) h (tl : loc) (newTail : loc) : option loc :=
  match fuel with
  | O => None
  | S f =>
      match next_of h newTail with
      | None => Some newTail
      | Some n => if decide (n = tl) then Some newTail else pop_scan f h tl n
      end
  end.

(** [pop ()] *)
Definition pop (fuel : nat) s : option (t A * option loc) :=
  match head_ s, tail_ s with
  | Some hd, Some oldTail =>
      if bool_decide (hd = oldTail) && (length_ s =? 1)
      then Some (mkList (heap s) None None 0, Some oldTail)
      else
        match pop_scan fuel (heap s) oldTail hd with
        | None => None
        | Some newTail =>
            Some (mkList (set_next (heap s) newTail None) (head_ s) (tail_ s)
                         (length_ s - 1),
                  Some oldTail)
        end
  | _, _ => Some (s, None)
  end.

(** The scan of [get]: [while (counter !== index && current !== null)].
    [remaining] is [index - counter], so the test [counter !== index] is the
    test that [remaining] is not 0; the scan returns the counter and the
    reference it stopped with. *)
Fixpoint get_scan (remaining : nat) h (counter : Z) (current : option loc)
  : Z * option loc :=
  match remaining with
  | O => (counter, current)
  | S r =>
      match current with
      | None => (counter, current)
      | Some c => get_scan r h (counter + 1) (next_of h c)
      end
  end.

(** [get (index)] *)
Definition get index s : option loc :=
  if (index <? 0) || (length_ s <=? index) then None
  else
    let '(counter, current) := get_scan (Z.to_nat index) (heap s) 0 (head_ s) in
    if negb (counter =? index) then None else current.

(** [set (index, data)] *)
Definition set index (d : A) s : t A * bool :=
  match get index s with
  | None => (s, false)
  | Some node =>
      (mkList (set_data (heap s) node d) (head_ s) (tail_ s) (length_ s), true)
  end.

(** The state right after [const newNode = new Node(data)] in [insert]:
    one more cell in the store, nothing refers to it yet. *)
Definition with_node (d : A) s : t A :=
  mkList (fst (new_Node (heap s) d)) (head_ s) (tail_ s) (length_ s).

(** [insert (index, data)] *)
Definition insert index (d : A) s : t A * bool :=
  if (index <? 0) || (length_ s <? index) then (s, false)
  else if index =? length_ s then (push d s, true)
  else
    let s1 := with_node d s in
    let newNode := snd (new_Node (heap s) d) in
    if index =? 0 then
      (mkList (set_next (heap s1) newNode (head_ s1)) (Some newNode) (tail_ s1)
              (length_ s1 + 1), true)
    else
      match get (index - 1) s1 with
      | None => (s1, false)
      | Some prevNode =>
          let h2 := set_next (heap s1) newNode (next_of (heap s1) prevNode) in
          let h3 := set_next h2 prevNode (Some newNode) in
          (mkList h3 (head_ s1) (tail_ s1) (length_ s1 + 1), true)
      end.

(** [remove (index)].  In the general branch the source reads
    [node = prevNode.next] and then writes [prevNode.next = node ?? null]. *)
Definition remove index s : t A * option loc :=
  if (index <? 0) || (length_ s <=? index) then (s, None)
  else
    match (if index =? 0 then head_ s else None) with
    | Some oldHead =>
        (mkList (heap s) (next_of (heap s) oldHead) (tail_ s) (length_ s - 1),
         Some oldHead)
    | None =>
        match get (index - 1) s with
        | None => (s, None)
        | Some prevNode =>
            let node := next_of (heap s) prevNode in
            (mkList (set_next (heap s) prevNode node) (head_ s) (tail_ s)
                    (length_ s - 1),
             node)
        end
    end.

(** [removeHead ()] *)
Definition removeHead s : t A * option loc :=
  match head_ s with
  | None => (s, None)
  | Some oldHead =>
      let hd := match next_of (heap s) oldHead with
                | Some n => Some n
                | None => Some oldHead
                end in
      (mkList (heap s) hd (tail_ s) (length_ s - 1), Some oldHead)
  end.

(** The scan of [removeTail]: [while (newTail?.next !== oldTail)] with body
    [newTail = newTail?.next ?? null].  On [null] the test reads
    [undefined !== oldTail], which holds, and the body stores [null] again. *)
Fixpoint removeTail_scan (fuel : nat) h (oldTail : loc) (newTail : option loc)
  : option loc :=
  match fuel with
  | O => None
  | S f =>
      match newTail with
      | None => removeTail_scan f h oldTail None
      | Some c =>
          if decide (next_of h c = Some oldTail) then Some c
          else removeTail_scan f h oldTail (next_of h c)
      end
  end.

(** [removeTail ()] *)
Definition removeTail (fuel : nat) s : option (t A * option loc) :=
  match tail_ s, head_ s with
  | Some oldTail, Some hd =>
      match removeTail_scan fuel (heap s) oldTail (Some hd) with
      | None => None
      | Some newTail =>
          Some (mkList (set_next (heap s) newTail None) (head_ s) (Some newTail)
                       (length_ s - 1),
                Some oldTail)
      end
  | _, _ => Some (s, None)
  end.

(** The loop of [toArray]. *)
Fixpoint toArray_scan (fuel : nat) h (currentNode : option loc)
  : option (list A) :=
  match currentNode with
  | None => Some []
  | Some c =>
      match fuel with
      | O => None
      | S f =>
          match data_of h c, toArray_scan f h (next_of h c) with
          | Some d, Some rest => Some (d :: rest)
          | _, _ => None
          end
      end
  end.

(** [toArray ()] *)
Definition toArray (fuel : nat) s : option (list A) :=
  toArray_scan fuel (heap s) (head_ s).

(** [length ()], [head ()], [tail ()] *)
Definition length s : Z := length_ s.
Definition head s : option loc := head_ s.
Definition tail s : option loc := tail_ s.

(** The payload of a returned node reference. *)
Definition node_data s (r : option loc) : option A :=
  match r with Some p => data_of (heap s) p | None => None end.

(** ** Shape of the chain *)

(** The number of nodes met when following [next] from a reference until
    [null]; this is the quantity the length counter is meant to track. *)
Fixpoint nodes_from (fuel : nat) h (current : option loc) : option nat :=
  match current with
  | None => Some O
  | Some c =>
      match fuel with
      | O => None
      | S f => S <$> nodes_from f h (next_of h c)
      end
  end.

(** [chain h p ls]: following [next] from [p] visits exactly the allocated
    locations [ls] and then reaches [null]. *)
Fixpoint chain h (p : option loc) (ls : list loc) : Prop :=
  match ls with
  | [] => p = None
  | l :: ls' =>
      p = Some l /\ (l < Datatypes.length h)%nat /\ chain h (next_of h l) ls'
  end.

(** The data-model invariants of the list: [#head] starts a finite chain
    without repetition, [#length] counts it and [#tail] is its last node. *)
Definition well_formed s : Prop :=
  exists ls : list loc,
    chain (heap s) (head_ s) ls /\ NoDup ls /\
    length_ s = Z.of_nat (Datatypes.length ls) /\ tail_ s = last ls.

(** The states the class can be in: those built from [constructor ()] by
    its mutating methods, each time the method returns. *)
Inductive reachable : t A -> Prop :=
| reach_constructor : reachable constructor
| reach_push d s : reachable s -> reachable (push d s)
| reach_pop fuel s s' r :
    reachable s -> pop fuel s = Some (s', r) -> reachable s'
| reach_set index d s : reachable s -> reachable (set index d s).1
| reach_insert index d s : reachable s -> reachable (insert index d s).1
| reach_remove index s : reachable s -> reachable (remove index s).1
| reach_removeHead s : reachable s -> reachable (removeHead s).1
| reach_removeTail fuel s s' r :
    reachable s -> removeTail fuel s = Some (s', r) -> reachable s'.

(** Every reference held by the list or by one of its nodes denotes an
    allocated node. *)
Definition heap_closed h : Prop :=
  forall p q, next_of h p = Some q -> (q < Datatypes.length h)%nat.

Definition ref_closed h (r : option loc) : Prop :=
  forall p, r = Some p -> (p < Datatypes.length h)%nat.

Definition closed s : Prop :=
  heap_closed (heap s) /\ ref_closed (heap s) (head_ s) /\
  ref_closed (heap s) (tail_ s).

End Operations.

(** ** Operation sequences used in the scenarios *)

(** push(1), push(2), push(3) *)
Definition list_123 : t Z := push 3 (push 2 (push 1 constructor)).

(** push(1), push(2), pop(), push(3) *)
Definition list_pop_push : t Z :=
  match pop 2 (push 2 (push 1 constructor)) with
  | Some (s, _) => push 3 s
  | None => constructor
  end.

(** push(1), push(2), pop(), push(3), remove(0) *)
Definition list_pop_push_remove : t Z := (remove 0 list_pop_push).1.

(** push(1), removeHead(), removeHead() *)
Definition list_removeHead_twice : t Z :=
  (removeHead (removeHead (push 1 constructor)).1).1.

(** ** The sequence a list stands for *)

Section Abstraction.
Context {A : Type}.
Implicit Types (h : list (Node A)) (s : t A) (ls : list loc) (vs : list A).

(** [shape s ls]: the data-model invariants of [s], with the locations of
    its nodes in order. *)
Definition shape s ls : Prop :=
  chain (heap s) (head_ s) ls /\ NoDup ls /\
  length_ s = Z.of_nat (Datatypes.length ls) /\ tail_ s = last ls.

(** [contents h ls vs]: the nodes [ls] carry the payloads [vs]. *)
Definition contents h ls vs : Prop :=
  Forall2 (fun l v => data_of h l = Some v) ls vs.

(** [models s vs]: [s] satisfies the data-model invariants and holds the
    sequence [vs]. *)
Definition models s vs : Prop :=
  exists ls, shape s ls /\ contents (heap s) ls vs.

(** push(v1), ..., push(vn) on a new list. *)
Definition pushes vs : t A := foldl (fun s v => push v s) constructor vs.

(** No cycle in the store: following [next] from any allocated node ends. *)
Definition acyclic h : Prop :=
  forall p, (p < Datatypes.length h)%nat -> exists ls, chain h (Some p) ls.

End Abstraction.

Section Properties.
Context {A : Type}.
Implicit Types (h : list (Node A)) (s : t A) (p q : loc) (index : Z) (d x : A).

(** *** More fuel never changes a result *)

Lemma toArray_scan_mono fuel fuel' h (c : option loc) (r : list A) :
  toArray_scan fuel h c = Some r -> (fuel <= fuel')%nat ->
  toArray_scan fuel' h c = Some r.
Proof.
  revert fuel' c r.
  induction fuel as [|f IH]; intros fuel' c r Hrun Hle.
  - destruct c; simpl in Hrun; [discriminate|].
    destruct fuel'; exact Hrun.
  - destruct c as [c|]; [|destruct fuel'; exact Hrun].
    destruct fuel' as [|f']; [lia|].
    simpl in *.
    destruct (data_of h c); [|discriminate].
    destruct (toArray_scan f h (next_of h c)) eqn:E; [|discriminate].
    rewrite (IH f' _ _ E); [exact Hrun | lia].
Qed.

Lemma toArray_mono fuel k s (r : list A) :
  toArray fuel s = Some r -> toArray (fuel + k) s = Some r.
Proof.
  intros Hrun. unfold toArray in *.
  apply (toArray_scan_mono fuel); [exact Hrun | lia].
Qed.

Lemma nodes_from_mono fuel fuel' h (c : option loc) (n : nat) :
  nodes_from fuel h c = Some n -> (fuel <= fuel')%nat ->
  nodes_from fuel' h c = Some n.
Proof.
  revert fuel' c n.
  induction fuel as [|f IH]; intros fuel' c n Hrun Hle.
  - destruct c; simpl in Hrun; [discriminate|].
    destruct fuel'; exact Hrun.
  - destruct c as [c|]; [|destruct fuel'; exact Hrun].
    destruct fuel' as [|f']; [lia|].
    simpl in *.
    destruct (nodes_from f h (next_of h c)) eqn:E; [|discriminate].
    rewrite (IH f' _ _ E); [exact Hrun | lia].
Qed.

Lemma pop_scan_mono fuel fuel' h (tl c r : loc) :
  pop_scan fuel h tl c = Some r -> (fuel <= fuel')%nat ->
  pop_scan fuel' h tl c = Some r.
Proof.
  revert fuel' c.
  induction fuel as [|f IH]; intros fuel' c Hrun Hle; [discriminate|].
  destruct fuel' as [|f']; [lia|].
  simpl in *.
  destruct (next_of h c) as [n|]; [|exact Hrun].
  destruct (decide (n = tl)); [exact Hrun|].
  apply IH; [exact Hrun | lia].
Qed.

Lemma removeTail_scan_mono fuel fuel' h (tl : loc) (c : option loc) (r : loc) :
  removeTail_scan fuel h tl c = Some r -> (fuel <= fuel')%nat ->
  removeTail_scan fuel' h tl c = Some r.
Proof.
  revert fuel' c.
  induction fuel as [|f IH]; intros fuel' c Hrun Hle; [discriminate|].
  destruct fuel' as [|f']; [lia|].
  simpl in *.
  destruct c as [c|].
  - destruct (decide (next_of h c = Some tl)); [exact Hrun|].
    apply IH; [exact Hrun | lia].
  - apply IH; [exact Hrun | lia].
Qed.

(** Once the scan of [removeTail] holds [null] it never leaves the loop. *)
Lemma removeTail_scan_null fuel h (oldTail : loc) :
  removeTail_scan fuel h oldTail None = None.
Proof. induction fuel as [|f IH]; [reflexivity | exact IH]. Qed.

Lemma pop_mono fuel k s (r : t A * option loc) :
  pop fuel s = Some r -> pop (fuel + k) s = Some r.
Proof.
  unfold pop.
  destruct (head_ s) as [hd|]; [|trivial].
  destruct (tail_ s) as [oldTail|]; [|trivial].
  destruct (bool_decide (hd = oldTail) && (length_ s =? 1)); [trivial|].
  destruct (pop_scan fuel (heap s) oldTail hd) as [newTail|] eqn:E; [|discriminate].
  rewrite (pop_scan_mono fuel (fuel + k) _ _ _ _ E); [trivial | lia].
Qed.

Lemma removeTail_mono fuel k s (r : t A * option loc) :
  removeTail fuel s = Some r -> removeTail (fuel + k) s = Some r.
Proof.
  unfold removeTail.
  destruct (tail_ s) as [oldTail|]; [|trivial].
  destruct (head_ s) as [hd|]; [|trivial].
  destruct (removeTail_scan fuel (heap s) oldTail (Some hd)) as [newTail|] eqn:E;
    [|discriminate].
  rewrite (removeTail_scan_mono fuel (fuel + k) _ _ _ _ E); [trivial | lia].
Qed.

(** *** The write in the general branch of [remove] stores what it read *)

Lemma set_next_same h p : set_next h p (next_of h p) = h.
Proof.
  apply list_eq; intros i. unfold set_next, next_of.
  rewrite list_lookup_alter.
  case_decide as E; [subst i|reflexivity].
  destruct (h !! p) as [[dn nn]|]; reflexivity.
Qed.

Lemma remove_keeps_store index s : heap (remove index s).1 = heap s.
Proof.
  unfold remove.
  destruct ((index <? 0) || (length_ s <=? index)); [reflexivity|].
  destruct (if index =? 0 then head_ s else None); [reflexivity|].
  destruct (get (index - 1) s); [|reflexivity].
  simpl. apply set_next_same.
Qed.

Lemma remove_positive_keeps_head index s :
  index <> 0 -> head_ (remove index s).1 = head_ s.
Proof.
  intros Hne. unfold remove.
  destruct ((index <? 0) || (length_ s <=? index)); [reflexivity|].
  destruct (index =? 0) eqn:E; [apply Z.eqb_eq in E; contradiction|].
  destruct (get (index - 1) s); reflexivity.
Qed.

(** Away from index 0, [remove] leaves every link as it was: the sequence
    read by [toArray] is the same before and after. *)
Lemma remove_positive_keeps_toArray fuel index s :
  index <> 0 -> toArray fuel (remove index s).1 = toArray fuel s.
Proof.
  intros Hne. unfold toArray.
  rewrite remove_keeps_store, remove_positive_keeps_head; [reflexivity | exact Hne].
Qed.

(** *** [removeTail] on a list whose head is its tail *)

Lemma removeTail_head_is_tail fuel s (c : loc) :
  head_ s = Some c -> tail_ s = Some c -> next_of (heap s) c = None ->
  removeTail fuel s = None.
Proof.
  intros Hh Ht Hn. unfold removeTail. rewrite Hh, Ht.
  destruct fuel as [|f]; [reflexivity|].
  simpl. rewrite Hn.
  destruct (decide (None = Some c)) as [E|_]; [discriminate E|].
  rewrite removeTail_scan_null. reflexivity.
Qed.

(** C2 (totality of every operation) fails on the code: the list that
    holds one element, whatever the element, is reachable, and on it
    [removeTail] is still inside its scan after any number of loop tests, so
    it returns nothing. *)
Theorem removeTail_single_never_returns x (fuel : nat) :
  reachable (push x constructor) /\
  removeTail fuel (push x constructor) = None.
Proof.
  split; [apply reach_push, reach_constructor|].
  apply (removeTail_head_is_tail fuel (push x constructor) O); reflexivity.
Qed.

(** C5: on a list whose head is present, [removeHead] returns that head and
    decrements the length; the head moves to the successor when there is
    one, and otherwise stays on the removed node, so that on a one-element
    list [head ()] is still present while [length ()] is 0. *)
Theorem removeHead_spec s (oldHead : loc) :
  head s = Some oldHead ->
  (removeHead s).2 = Some oldHead /\
  length (removeHead s).1 = length s - 1 /\
  (forall n, next_of (heap s) oldHead = Some n ->
             head (removeHead s).1 = Some n) /\
  (next_of (heap s) oldHead = None ->
   head (removeHead s).1 = Some oldHead /\
   (length s = 1 -> length (removeHead s).1 = 0 /\ head (removeHead s).1 <> None)).
Proof.
  unfold head, length, removeHead. intros Hh. rewrite Hh. simpl.
  split; [reflexivity|]. split; [reflexivity|].
  split.
  - intros n Hn. rewrite Hn. reflexivity.
  - intros Hn. rewrite Hn.
    split; [reflexivity|]. intros Hone.
    split; [lia | discriminate].
Qed.

(** *** Reading and writing the store *)

Lemma next_of_app h h' p :
  (p < Datatypes.length h)%nat -> next_of (h ++ h') p = next_of h p.
Proof. intros Hp. unfold next_of. rewrite lookup_app_l; [reflexivity | exact Hp]. Qed.

Lemma data_of_app h h' p :
  (p < Datatypes.length h)%nat -> data_of (h ++ h') p = data_of h p.
Proof. intros Hp. unfold data_of. rewrite lookup_app_l; [reflexivity | exact Hp]. Qed.

Lemma next_of_set_next_ne h p q v :
  p <> q -> next_of (set_next h p v) q = next_of h q.
Proof.
  intros Hne. unfold next_of, set_next.
  rewrite list_lookup_alter_ne; [reflexivity | exact Hne].
Qed.

Lemma next_of_set_next_eq h p v :
  (p < Datatypes.length h)%nat -> next_of (set_next h p v) p = v.
Proof.
  intros Hp. unfold next_of, set_next. rewrite list_lookup_alter_eq.
  destruct (lookup_lt_is_Some_2 h p Hp) as [n ->]. reflexivity.
Qed.

Lemma length_set_next h p v :
  Datatypes.length (set_next h p v) = Datatypes.length h.
Proof. apply length_alter. Qed.

(** *** Chains *)

Lemma chain_start h (c : option loc) ls : chain h c ls -> c = ls !! O.
Proof. destruct ls; simpl; [tauto | intros (-> & _); reflexivity]. Qed.

Lemma chain_allocated h (c : option loc) ls :
  chain h c ls -> forall l, l ∈ ls -> (l < Datatypes.length h)%nat.
Proof.
  revert c. induction ls as [|l0 ls IH]; intros c Hc l Hin.
  - inversion Hin.
  - destruct Hc as (_ & Hl0 & Hrest).
    apply elem_of_cons in Hin as [->|Hin]; [exact Hl0 | exact (IH _ Hrest l Hin)].
Qed.

Lemma chain_app h h' (c : option loc) ls : chain h c ls -> chain (h ++ h') c ls.
Proof.
  revert c. induction ls as [|l ls IH]; intros c Hc; [exact Hc|].
  destruct Hc as (Hc & Hl & Hrest). simpl.
  split; [exact Hc|]. split; [rewrite length_app; lia|].
  rewrite next_of_app; [apply IH; exact Hrest | exact Hl].
Qed.

(** The successor of the [i]-th node of a chain is its [i+1]-th node, and
    the last node has none. *)
Lemma chain_next h (c : option loc) ls (i : nat) (a : loc) :
  chain h c ls -> ls !! i = Some a -> next_of h a = ls !! S i.
Proof.
  revert c i. induction ls as [|l ls IH]; intros c i Hc Hi; [discriminate|].
  destruct Hc as (_ & _ & Hrest).
  destruct i as [|i]; simpl in Hi.
  - injection Hi as ->. exact (chain_start _ _ _ Hrest).
  - exact (IH _ _ Hrest Hi).
Qed.

(** On a chain the scan of [get] reaches its index and stops on the node at
    that position. *)
Lemma get_scan_chain h (c : option loc) ls (r : nat) (counter : Z) :
  chain h c ls -> (r <= Datatypes.length ls)%nat ->
  get_scan r h counter c = (counter + Z.of_nat r, ls !! r).
Proof.
  revert c ls counter. induction r as [|r IH]; intros c ls counter Hc Hr.
  - simpl. rewrite Z.add_0_r, (chain_start _ _ _ Hc). reflexivity.
  - destruct ls as [|l ls]; [simpl in Hr; lia|].
    destruct Hc as (-> & _ & Hrest). simpl in Hr. simpl get_scan.
    rewrite (IH _ ls); [|exact Hrest|lia].
    f_equal. lia.
Qed.

Lemma get_chain s ls index :
  chain (heap s) (head_ s) ls -> length_ s = Z.of_nat (Datatypes.length ls) ->
  0 <= index < length_ s ->
  get index s = ls !! Z.to_nat index /\ is_Some (get index s).
Proof.
  intros Hc Hlen Hidx.
  assert (get index s = ls !! Z.to_nat index) as Hget.
  { unfold get.
    destruct (index <? 0) eqn:E1; [apply Z.ltb_lt in E1; lia|].
    destruct (length_ s <=? index) eqn:E2; [apply Z.leb_le in E2; lia|].
    simpl. rewrite (get_scan_chain _ _ ls); [|exact Hc|lia].
    rewrite Z.add_0_l, Z2Nat.id by lia.
    rewrite Z.eqb_refl. reflexivity. }
  split; [exact Hget|].
  rewrite Hget. apply lookup_lt_is_Some_2. lia.
Qed.

(** *** [push] keeps the data-model invariants *)

Lemma well_formed_constructor : well_formed (@constructor A).
Proof.
  exists []. repeat split. apply NoDup_nil_2.
Qed.

Lemma chain_push h (c : option loc) ls (tl : loc) d :
  chain h c (ls ++ [tl]) -> NoDup (ls ++ [tl]) ->
  chain (set_next (h ++ [mkNode d None]) tl (Some (Datatypes.length h))) c
        (ls ++ [tl; Datatypes.length h]).
Proof.
  revert c. induction ls as [|l ls IH]; intros c Hc Hnd.
  - destruct Hc as (-> & Htl & _). simpl.
    rewrite !length_set_next, !length_app. simpl.
    split; [reflexivity|]. split; [lia|].
    rewrite next_of_set_next_eq by (rewrite length_app; simpl; lia).
    split; [reflexivity|]. split; [lia|].
    rewrite next_of_set_next_ne by lia.
    unfold next_of. rewrite lookup_app_r by lia.
    rewrite Nat.sub_diag. reflexivity.
  - destruct Hc as (-> & Hl & Hrest).
    apply NoDup_cons in Hnd as (Hnotin & Hnd).
    simpl. rewrite length_set_next, length_app. simpl.
    split; [reflexivity|]. split; [lia|].
    rewrite next_of_set_next_ne.
    + rewrite next_of_app by exact Hl. exact (IH _ Hrest Hnd).
    + intros ->. apply Hnotin. apply elem_of_app. right. apply list_elem_of_singleton. reflexivity.
Qed.

Lemma well_formed_push d s : well_formed s -> well_formed (push d s).
Proof.
  intros (ls & Hc & Hnd & Hlen & Htl).
  destruct ls as [|l0 ls0] using rev_ind.
  - exists [Datatypes.length (heap s)].
    simpl in Hc, Htl. unfold push. simpl. rewrite Hc, Htl. simpl.
    split.
    + split; [reflexivity|]. rewrite length_app. simpl. split; [lia|].
      unfold next_of. rewrite lookup_app_r by lia. rewrite Nat.sub_diag. reflexivity.
    + split; [apply NoDup_singleton|]. split; [simpl in Hlen; lia | reflexivity].
  - clear IHls0. rename ls0 into ls.
    exists ((ls ++ [l0]) ++ [Datatypes.length (heap s)]).
    rewrite last_snoc in Htl.
    assert (exists first, head_ s = Some first) as (first & Hfirst).
    { destruct ls; destruct Hc as (-> & _); eauto. }
    unfold push. simpl. rewrite Hfirst, Htl. simpl.
    split.
    + rewrite <- Hfirst, <- app_assoc. apply chain_push; assumption.
    + split.
      * apply NoDup_app. split; [exact Hnd|]. split; [|apply NoDup_singleton].
        intros l Hin Hin'. apply list_elem_of_singleton in Hin'. subst l.
        pose proof (chain_allocated _ _ _ Hc _ Hin). lia.
      * split; [|rewrite last_snoc; reflexivity].
        rewrite !length_app in *. simpl in *. lia.
Qed.

(** *** Scans over a chain *)

Lemma data_of_set_next h p q v : data_of (set_next h p v) q = data_of h q.
Proof.
  unfold data_of, set_next. rewrite list_lookup_alter.
  case_decide as E; [subst q|reflexivity].
  destruct (h !! p); reflexivity.
Qed.

(** On a chain [toArray] needs one loop test per node and reads the data of
    each node in order. *)
Lemma toArray_scan_chain h (c : option loc) ls :
  chain h c ls ->
  exists vs, toArray_scan (Datatypes.length ls) h c = Some vs /\
             Forall2 (fun l v => data_of h l = Some v) ls vs.
Proof.
  revert c. induction ls as [|l ls IH]; intros c Hc.
  - simpl in Hc. subst c. exists []. split; [reflexivity | constructor].
  - destruct Hc as (-> & Hl & Hrest).
    destruct (IH _ Hrest) as (vs & Hvs & Hall).
    destruct (lookup_lt_is_Some_2 h l Hl) as [n Hn].
    exists (data n :: vs). simpl. unfold data_of at 1. rewrite Hn, Hvs. simpl.
    split; [reflexivity|]. constructor; [|exact Hall].
    unfold data_of. rewrite Hn. reflexivity.
Qed.

(** Under the data-model invariants [toArray] returns, and it returns as
    many elements as the length counter says. *)
Lemma toArray_well_formed s :
  well_formed s ->
  exists vs, toArray (Z.to_nat (length_ s)) s = Some vs /\
             Z.of_nat (Datatypes.length vs) = length_ s.
Proof.
  intros (ls & Hc & _ & Hlen & _).
  destruct (toArray_scan_chain _ _ _ Hc) as (vs & Hvs & Hall).
  exists vs. unfold toArray. rewrite Hlen, Nat2Z.id.
  split; [exact Hvs|]. rewrite <- (Forall2_length _ _ _ Hall). reflexivity.
Qed.

(** Two stores that agree on the nodes of a chain give the same array. *)
Lemma toArray_scan_ext h h' (c : option loc) ls (fuel : nat) :
  chain h c ls ->
  (forall l, l ∈ ls -> next_of h' l = next_of h l /\ data_of h' l = data_of h l) ->
  toArray_scan fuel h' c = toArray_scan fuel h c.
Proof.
  revert c fuel. induction ls as [|l ls IH]; intros c fuel Hc Hagree.
  - simpl in Hc. subst c. destruct fuel; reflexivity.
  - destruct Hc as (-> & _ & Hrest).
    destruct fuel as [|f]; [reflexivity|]. simpl.
    destruct (Hagree l) as (-> & ->); [left|].
    rewrite (IH _ f Hrest); [reflexivity|].
    intros l' Hin. apply Hagree. right. exact Hin.
Qed.

(** On a chain that ends with the tail, the scan of [pop] stops on the node
    before the tail. *)
Lemma pop_scan_chain h ls (prev tl c : loc) :
  chain h (Some c) (ls ++ [prev; tl]) -> NoDup (ls ++ [prev; tl]) ->
  pop_scan (S (Datatypes.length ls)) h tl c = Some prev.
Proof.
  revert c. induction ls as [|l ls IH]; intros c Hc Hnd.
  - destruct Hc as (Hc & _ & Hrest). injection Hc as ->.
    apply chain_start in Hrest. simpl in Hrest. simpl. rewrite Hrest.
    case_decide; [reflexivity | contradiction].
  - destruct Hc as (Hc & _ & Hrest). injection Hc as ->.
    simpl in Hnd. apply NoDup_cons in Hnd as (_ & Hnd).
    pose proof (chain_start _ _ _ Hrest) as Hnext.
    assert (exists c', (ls ++ [prev; tl]) !! O = Some c' /\ c' <> tl) as (c' & Hc' & Hne).
    { change [prev; tl] with ([prev] ++ [tl]) in *. rewrite app_assoc in *.
      apply NoDup_app in Hnd as (_ & Hdisj & _).
      destruct (ls ++ [prev]) as [|c' rest] eqn:E; [destruct ls; discriminate|].
      exists c'. split; [reflexivity|].
      intros ->. apply (Hdisj tl); [left | apply list_elem_of_singleton; reflexivity]. }
    rewrite Hc' in Hnext. rewrite Hnext in Hrest.
    change (pop_scan (S (Datatypes.length (l :: ls))) h tl l)
      with (match next_of h l with
            | None => Some l
            | Some n => if decide (n = tl) then Some l
                        else pop_scan (S (Datatypes.length ls)) h tl n
            end).
    rewrite Hnext. case_decide; [contradiction|].
    apply IH; [exact Hrest | exact Hnd].
Qed.

(** The same for the scan of [removeTail]. *)
Lemma removeTail_scan_chain h ls (prev tl c : loc) :
  chain h (Some c) (ls ++ [prev; tl]) -> NoDup (ls ++ [prev; tl]) ->
  removeTail_scan (S (Datatypes.length ls)) h tl (Some c) = Some prev.
Proof.
  revert c. induction ls as [|l ls IH]; intros c Hc Hnd.
  - destruct Hc as (Hc & _ & Hrest). injection Hc as ->.
    apply chain_start in Hrest. simpl in Hrest. simpl. rewrite Hrest.
    case_decide; [reflexivity | contradiction].
  - destruct Hc as (Hc & _ & Hrest). injection Hc as ->.
    simpl in Hnd. apply NoDup_cons in Hnd as (_ & Hnd).
    pose proof (chain_start _ _ _ Hrest) as Hnext.
    assert (exists c', (ls ++ [prev; tl]) !! O = Some c' /\ c' <> tl) as (c' & Hc' & Hne).
    { change [prev; tl] with ([prev] ++ [tl]) in *. rewrite app_assoc in *.
      apply NoDup_app in Hnd as (_ & Hdisj & _).
      destruct (ls ++ [prev]) as [|c' rest] eqn:E; [destruct ls; discriminate|].
      exists c'. split; [reflexivity|].
      intros ->. apply (Hdisj tl); [left | apply list_elem_of_singleton; reflexivity]. }
    rewrite Hc' in Hnext. rewrite Hnext in Hrest.
    change (removeTail_scan (S (Datatypes.length (l :: ls))) h tl (Some l))
      with (if decide (next_of h l = Some tl) then Some l
            else removeTail_scan (S (Datatypes.length ls)) h tl (next_of h l)).
    rewrite Hnext. case_decide as E; [congruence|].
    apply IH; [exact Hrest | exact Hnd].
Qed.

(** *** [pop] after [push] under the data-model invariants *)

(** When the list satisfies the data-model invariants, [pop] after
    [push (v)] returns (within [length ()] loop tests) the node that carries
    [v], and the list reads as it did before the push. *)
Lemma pop_undoes_push_well_formed v s :
  well_formed s ->
  exists s' r,
    (forall k, pop (Z.to_nat (length_ s) + k) (push v s) = Some (s', r)) /\
    node_data s' r = Some v /\
    forall fuel, toArray fuel s' = toArray fuel s.
Proof.
  intros (ls & Hc & Hnd & Hlen & Htl).
  destruct ls as [|tl ls _] using rev_ind.
  - simpl in Hc, Htl, Hlen.
    exists (mkList (heap s ++ [mkNode v None]) None None 0),
           (Some (Datatypes.length (heap s))).
    split; [|split].
    + intros k. unfold pop, push. simpl. rewrite Hc, Htl, Hlen. simpl.
      rewrite bool_decide_eq_true_2 by reflexivity. reflexivity.
    + simpl. unfold data_of. rewrite lookup_app_r by lia.
      rewrite Nat.sub_diag. reflexivity.
    + intros fuel. unfold toArray. simpl. rewrite Hc. destruct fuel; reflexivity.
  - rewrite last_snoc in Htl.
    assert (exists first, head_ s = Some first /\ (ls ++ [tl]) !! O = Some first)
      as (first & Hfirst & Hfirst').
    { destruct ls; destruct Hc as (-> & _); eauto. }
    pose proof (chain_allocated _ _ _ Hc) as Halloc.
    assert (first < Datatypes.length (heap s))%nat as Hfl.
    { apply Halloc. eapply list_elem_of_lookup_2. exact Hfirst'. }
    assert (tl < Datatypes.length (heap s))%nat as Htll.
    { apply Halloc. apply elem_of_app. right. apply list_elem_of_singleton. reflexivity. }
    set (node := Datatypes.length (heap s)) in *.
    set (h2 := set_next (heap s ++ [mkNode v None]) tl (Some node)).
    assert (NoDup (ls ++ [tl; node])) as Hnd2.
    { change [tl; node] with ([tl] ++ [node]). rewrite app_assoc.
      apply NoDup_app. split; [exact Hnd|]. split; [|apply NoDup_singleton].
      intros l Hin Hin'. apply list_elem_of_singleton in Hin'. subst l.
      specialize (Halloc _ Hin). lia. }
    assert (chain h2 (Some first) (ls ++ [tl; node])) as Hc2.
    { rewrite <- Hfirst. apply chain_push; assumption. }
    exists (mkList (set_next h2 tl None) (Some first) (Some node) (length_ s + 1 - 1)),
           (Some node).
    split; [|split].
    + intros k. unfold pop, push. simpl. rewrite Hfirst, Htl. simpl.
      fold node. fold h2.
      rewrite bool_decide_eq_false_2 by lia. simpl.
      rewrite (pop_scan_mono (S (Datatypes.length ls)) _ h2 node first tl).
      * reflexivity.
      * apply pop_scan_chain; assumption.
      * rewrite Hlen, Nat2Z.id, length_app. simpl. lia.
    + simpl. unfold h2. rewrite !data_of_set_next.
      unfold data_of. rewrite lookup_app_r by (unfold node; lia).
      unfold node. rewrite Nat.sub_diag. reflexivity.
    + intros fuel. unfold toArray. simpl. rewrite Hfirst.
      apply (toArray_scan_ext _ _ _ (ls ++ [tl])); [rewrite <- Hfirst; exact Hc|].
      intros l Hin. split.
      * destruct (decide (l = tl)) as [->|Hne].
        -- rewrite next_of_set_next_eq
             by (unfold h2; rewrite length_set_next, length_app; lia).
           symmetry.
           rewrite (chain_next _ _ _ (Datatypes.length ls) tl Hc).
           ++ apply lookup_ge_None_2. rewrite length_app. simpl. lia.
           ++ rewrite lookup_app_r by lia. rewrite Nat.sub_diag. reflexivity.
        -- unfold h2. rewrite !next_of_set_next_ne by congruence.
           apply next_of_app. apply Halloc. exact Hin.
      * unfold h2. rewrite !data_of_set_next.
        apply data_of_app. apply Halloc. exact Hin.
Qed.

(** Under the data-model invariants and with at least two nodes,
    [removeTail] returns the tail within [length ()] loop tests. *)
Lemma removeTail_returns_well_formed s :
  well_formed s -> 2 <= length_ s ->
  exists s', removeTail (Z.to_nat (length_ s)) s = Some (s', tail_ s) /\
             is_Some (tail_ s) /\ length_ s' = length_ s - 1.
Proof.
  intros (ls & Hc & Hnd & Hlen & Htl) Htwo.
  destruct ls as [|tl ls _] using rev_ind; [simpl in Hlen; lia|].
  destruct ls as [|prev ls _] using rev_ind; [simpl in Hlen; lia|].
  rewrite last_snoc in Htl. rewrite <- app_assoc in Hc, Hnd. simpl in Hc, Hnd.
  assert (exists first, head_ s = Some first) as (first & Hfirst).
  { destruct ls; destruct Hc as (-> & _); eauto. }
  rewrite Hfirst in Hc.
  pose proof (removeTail_scan_chain _ _ _ _ _ Hc Hnd) as Hscan.
  exists (mkList (set_next (heap s) prev None) (head_ s) (Some prev) (length_ s - 1)).
  split; [|split; [rewrite Htl; eauto | reflexivity]].
  unfold removeTail. rewrite Htl, Hfirst.
  rewrite (removeTail_scan_mono _ (Z.to_nat (length_ s)) _ _ _ _ Hscan); [reflexivity|].
  rewrite Hlen, Nat2Z.id, !length_app. simpl. lia.
Qed.

(** *** No dangling reference in a reachable state *)

Lemma ref_closed_None h : ref_closed h None.
Proof. intros p Hp. discriminate. Qed.

Lemma ref_closed_next h p : heap_closed h -> ref_closed h (next_of h p).
Proof. intros Hh q Hq. exact (Hh p q Hq). Qed.

Lemma ref_closed_app h h' (r : option loc) :
  ref_closed h r -> ref_closed (h ++ h') r.
Proof. intros Hr p Hp. rewrite length_app. specialize (Hr p Hp). lia. Qed.

Lemma ref_closed_set_next h p v (r : option loc) :
  ref_closed h r -> ref_closed (set_next h p v) r.
Proof. intros Hr q Hq. rewrite length_set_next. exact (Hr q Hq). Qed.

Lemma heap_closed_new_Node h d : heap_closed h -> heap_closed (new_Node h d).1.
Proof.
  intros Hh p q. simpl. rewrite length_app. simpl.
  destruct (decide (p < Datatypes.length h)%nat) as [Hlt|Hge].
  - rewrite next_of_app by exact Hlt. intros Hq. specialize (Hh p q Hq). lia.
  - unfold next_of. rewrite lookup_app_r by lia.
    destruct (p - Datatypes.length h)%nat as [|k]; simpl; discriminate.
Qed.

Lemma heap_closed_set_next h p v :
  heap_closed h -> ref_closed h v -> heap_closed (set_next h p v).
Proof.
  intros Hh Hv p' q. rewrite length_set_next.
  destruct (decide (p = p')) as [<-|Hne].
  - unfold next_of, set_next. rewrite list_lookup_alter_eq.
    destruct (h !! p); simpl; [apply Hv | discriminate].
  - rewrite next_of_set_next_ne by exact Hne. apply Hh.
Qed.

Lemma heap_closed_set_data h p d : heap_closed h -> heap_closed (set_data h p d).
Proof.
  intros Hh p' q. unfold set_data. rewrite length_alter.
  unfold next_of. rewrite list_lookup_alter. intros Hq. apply (Hh p' q).
  unfold next_of. case_decide as E; [subst p'|exact Hq].
  destruct (h !! p); exact Hq.
Qed.

Lemma get_scan_closed (r : nat) h (counter : Z) (current : option loc) :
  heap_closed h -> ref_closed h current ->
  ref_closed h (get_scan r h counter current).2.
Proof.
  intros Hh. revert counter current.
  induction r as [|r IH]; intros counter current Hcur; [exact Hcur|].
  destruct current as [c|]; [|exact Hcur].
  simpl. apply IH. apply ref_closed_next. exact Hh.
Qed.

Lemma get_closed index s : closed s -> ref_closed (heap s) (get index s).
Proof.
  intros (Hh & Hhd & _). unfold get.
  destruct ((index <? 0) || (length_ s <=? index)); [apply ref_closed_None|].
  pose proof (get_scan_closed (Z.to_nat index) (heap s) 0 (head_ s) Hh Hhd) as Hscan.
  destruct (get_scan (Z.to_nat index) (heap s) 0 (head_ s)) as [counter current].
  destruct (negb (counter =? index)); [apply ref_closed_None | exact Hscan].
Qed.

Lemma pop_scan_closed (fuel : nat) h (tl c r : loc) :
  heap_closed h -> (c < Datatypes.length h)%nat ->
  pop_scan fuel h tl c = Some r -> (r < Datatypes.length h)%nat.
Proof.
  intros Hh. revert c.
  induction fuel as [|f IH]; intros c Hc Hrun; [discriminate|].
  simpl in Hrun.
  destruct (next_of h c) as [n|] eqn:En; [|congruence].
  destruct (decide (n = tl)); [congruence|].
  exact (IH n (Hh c n En) Hrun).
Qed.

Lemma removeTail_scan_closed (fuel : nat) h (tl : loc) (c : option loc) (r : loc) :
  heap_closed h -> ref_closed h c ->
  removeTail_scan fuel h tl c = Some r -> (r < Datatypes.length h)%nat.
Proof.
  intros Hh. revert c.
  induction fuel as [|f IH]; intros c Hc Hrun; [discriminate|].
  simpl in Hrun. destruct c as [c|].
  - destruct (decide (next_of h c = Some tl)).
    + injection Hrun as <-. apply Hc. reflexivity.
    + exact (IH _ (ref_closed_next h c Hh) Hrun).
  - rewrite removeTail_scan_null in Hrun. discriminate.
Qed.

Lemma closed_push d s : closed s -> closed (push d s).
Proof.
  intros (Hh & Hhd & Htl).
  pose proof (heap_closed_new_Node _ d Hh) as Hh1.
  assert (ref_closed (new_Node (heap s) d).1 (Some (Datatypes.length (heap s)))) as Hnew.
  { intros p [= <-]. simpl. rewrite length_app. simpl. lia. }
  unfold push, closed. simpl in *.
  destruct (tail_ s) as [tl|]; simpl.
  - split; [apply heap_closed_set_next; assumption|].
    split; apply ref_closed_set_next; [|exact Hnew].
    destruct (head_ s); [apply ref_closed_app; exact Hhd | exact Hnew].
  - split; [exact Hh1|]. split; [|exact Hnew].
    destruct (head_ s); [apply ref_closed_app; exact Hhd | exact Hnew].
Qed.

Lemma closed_pop fuel s s' (r : option loc) :
  closed s -> pop fuel s = Some (s', r) -> closed s'.
Proof.
  intros (Hh & Hhd & Htl). unfold pop.
  destruct (head_ s) as [hd|] eqn:Ehd; [|intros [= <- _]; rewrite <- Ehd in Hhd; repeat split; assumption].
  destruct (tail_ s) as [oldTail|] eqn:Etl;
    [|intros [= <- _]; rewrite <- Ehd in Hhd; rewrite <- Etl in Htl; repeat split; assumption].
  destruct (bool_decide (hd = oldTail) && (length_ s =? 1)).
  - intros [= <- _]. repeat split; [exact Hh | apply ref_closed_None..].
  - destruct (pop_scan fuel (heap s) oldTail hd) as [newTail|]; [|discriminate].
    intros [= <- _]. unfold closed. simpl.
    split; [apply heap_closed_set_next; [exact Hh | apply ref_closed_None]|].
    split; apply ref_closed_set_next; assumption.
Qed.

Lemma closed_set index d s : closed s -> closed (set index d s).1.
Proof.
  intros Hs. unfold set. destruct (get index s) as [node|]; [|exact Hs].
  destruct Hs as (Hh & Hhd & Htl). unfold closed, ref_closed, set_data. simpl.
  rewrite length_alter.
  split; [apply heap_closed_set_data; exact Hh|]. split; assumption.
Qed.

Lemma closed_with_node d s : closed s -> closed (with_node d s).
Proof.
  intros (Hh & Hhd & Htl). unfold closed, with_node.
  split; [apply heap_closed_new_Node; exact Hh|].
  split; apply ref_closed_app; assumption.
Qed.

Lemma closed_insert index d s : closed s -> closed (insert index d s).1.
Proof.
  intros Hs. unfold insert.
  destruct ((index <? 0) || (length_ s <? index)); [exact Hs|].
  destruct (index =? length_ s); [apply closed_push; exact Hs|].
  pose proof (closed_with_node d s Hs) as Hs1.
  pose proof (get_closed (index - 1) _ Hs1) as Hget.
  destruct Hs1 as (Hh1 & Hhd1 & Htl1).
  assert (ref_closed (heap (with_node d s)) (Some (new_Node (heap s) d).2)) as Hnew.
  { intros p [= <-]. simpl. rewrite length_app. simpl. lia. }
  destruct (index =? 0).
  - unfold closed. simpl.
    split; [apply heap_closed_set_next; assumption|].
    split; apply ref_closed_set_next; assumption.
  - destruct (get (index - 1) (with_node d s)) as [prevNode|];
      [|repeat split; assumption].
    unfold closed. simpl.
    split.
    + apply heap_closed_set_next.
      * apply heap_closed_set_next; [exact Hh1 | apply ref_closed_next; exact Hh1].
      * apply ref_closed_set_next. exact Hnew.
    + split; do 2 apply ref_closed_set_next; assumption.
Qed.

Lemma closed_remove index s : closed s -> closed (remove index s).1.
Proof.
  intros Hs. pose proof Hs as (Hh & Hhd & Htl). unfold remove.
  destruct ((index <? 0) || (length_ s <=? index)); [exact Hs|].
  destruct (if index =? 0 then head_ s else None) as [oldHead|].
  - repeat split; [exact Hh | apply ref_closed_next; exact Hh | exact Htl].
  - destruct (get (index - 1) s) as [prevNode|]; [|exact Hs].
    unfold closed. simpl.
    split; [apply heap_closed_set_next; [exact Hh | apply ref_closed_next; exact Hh]|].
    split; apply ref_closed_set_next; assumption.
Qed.

Lemma closed_removeHead s : closed s -> closed (removeHead s).1.
Proof.
  intros Hs. pose proof Hs as (Hh & Hhd & Htl). unfold removeHead.
  destruct (head_ s) as [oldHead|] eqn:E; [|exact Hs].
  unfold closed. simpl. split; [exact Hh|]. split; [|exact Htl].
  destruct (next_of (heap s) oldHead) as [n|] eqn:En; [|exact Hhd].
  intros p [= <-]. exact (Hh _ _ En).
Qed.

Lemma closed_removeTail fuel s s' (r : option loc) :
  closed s -> removeTail fuel s = Some (s', r) -> closed s'.
Proof.
  intros Hs. pose proof Hs as (Hh & Hhd & Htl). unfold removeTail.
  destruct (tail_ s) as [oldTail|] eqn:Etl; [|intros [= <- _]; exact Hs].
  destruct (head_ s) as [hd|] eqn:Ehd; [|intros [= <- _]; exact Hs].
  destruct (removeTail_scan fuel (heap s) oldTail (Some hd)) as [newTail|] eqn:E;
    [|discriminate].
  intros [= <- _]. unfold closed. simpl.
  split; [apply heap_closed_set_next; [exact Hh | apply ref_closed_None]|].
  split; apply ref_closed_set_next; [exact Hhd|].
  intros p [= <-]. exact (removeTail_scan_closed _ _ _ _ _ Hh Hhd E).
Qed.

(** The store of a reachable state has no dangling reference, so the
    operations never read an unallocated location. *)
Lemma reachable_closed s : reachable s -> closed s.
Proof.
  induction 1 as [|d s _ IH|fuel s s' r _ IH Hpop|index d s _ IH|index d s _ IH
                 |index s _ IH|s _ IH|fuel s s' r _ IH Hrt].
  - repeat split; [intros p q; unfold next_of; simpl; discriminate
                  | apply ref_closed_None..].
  - apply closed_push; exact IH.
  - exact (closed_pop _ _ _ _ IH Hpop).
  - apply closed_set; exact IH.
  - apply closed_insert; exact IH.
  - apply closed_remove; exact IH.
  - apply closed_removeHead; exact IH.
  - exact (closed_removeTail _ _ _ _ IH Hrt).
Qed.

(** *** [remove] and the tail reference *)

(** C6: [remove] never writes [#tail], whatever the index; in particular,
    on a list that satisfies the data-model invariants, removing the last
    element by index returns the node the tail refers to and leaves the tail
    referring to that same node. *)
Theorem remove_never_updates_tail :
  (forall index s, tail (remove index s).1 = tail s) /\
  (forall s, well_formed s -> 0 < length s ->
     is_Some (remove (length s - 1) s).2 /\
     (remove (length s - 1) s).2 = tail s /\
     tail (remove (length s - 1) s).1 = (remove (length s - 1) s).2).
Proof.
  assert (forall index s, tail (remove index s).1 = tail s) as Hframe.
  { intros index s. unfold tail, remove.
    destruct ((index <? 0) || (length_ s <=? index)); [reflexivity|].
    destruct (if index =? 0 then head_ s else None); [reflexivity|].
    destruct (get (index - 1) s); reflexivity. }
  split; [exact Hframe|].
  intros s (ls & Hc & Hnd & Hlen & Htl) Hpos.
  rewrite Hframe. unfold length, tail in *.
  assert (is_Some (remove (length_ s - 1) s).2 /\
          (remove (length_ s - 1) s).2 = tail_ s) as (Hsome & Hret);
    [|split; [exact Hsome|]; split; [exact Hret | symmetry; exact Hret]].
  assert (tail_ s = ls !! (Datatypes.length ls - 1)%nat) as Hlast.
  { rewrite Htl, last_lookup. f_equal. lia. }
  assert (is_Some (tail_ s)) as Htail.
  { rewrite Hlast. apply lookup_lt_is_Some_2. lia. }
  unfold remove.
  destruct (length_ s - 1 <? 0) eqn:E1; [apply Z.ltb_lt in E1; lia|].
  destruct (length_ s <=? length_ s - 1) eqn:E2; [apply Z.leb_le in E2; lia|].
  simpl orb. cbv iota.
  destruct (length_ s - 1 =? 0) eqn:E3.
  - apply Z.eqb_eq in E3.
    assert (Datatypes.length ls = 1%nat) as Hone by lia.
    rewrite (chain_start _ _ _ Hc). rewrite Hone in Hlast. simpl in Hlast.
    rewrite <- Hlast. destruct Htail as [tl Etl]. rewrite Etl. simpl.
    split; [eauto | reflexivity].
  - apply Z.eqb_neq in E3.
    destruct (get_chain s ls (length_ s - 1 - 1) Hc Hlen) as (Hget & (prev & Hprev));
      [lia|].
    rewrite Hprev. simpl.
    rewrite Hprev in Hget. symmetry in Hget.
    rewrite (chain_next _ _ _ _ _ Hc Hget).
    replace (S (Z.to_nat (length_ s - 1 - 1))) with (Datatypes.length ls - 1)%nat by lia.
    rewrite <- Hlast. split; [exact Htail | reflexivity].
Qed.

(** *** The boolean mutators *)

Lemma set_false index d s :
  (set index d s).2 = false <-> get index s = None.
Proof.
  unfold set. destruct (get index s); simpl; split; congruence.
Qed.

Lemma insert_false index d s :
  (insert index d s).2 = false <->
  index < 0 \/ length_ s < index \/
  (index <> length_ s /\ index <> 0 /\ get (index - 1) (with_node d s) = None).
Proof.
  unfold insert.
  destruct (index <? 0) eqn:E1;
    [apply Z.ltb_lt in E1; simpl; tauto | apply Z.ltb_ge in E1].
  destruct (length_ s <? index) eqn:E2;
    [apply Z.ltb_lt in E2; simpl; tauto | apply Z.ltb_ge in E2].
  simpl orb. cbv iota.
  destruct (index =? length_ s) eqn:E3;
    [apply Z.eqb_eq in E3; simpl; split; [discriminate | lia]
    | apply Z.eqb_neq in E3].
  destruct (index =? 0) eqn:E4;
    [apply Z.eqb_eq in E4; simpl; split; [discriminate | lia]
    | apply Z.eqb_neq in E4].
  destruct (get (index - 1) (with_node d s)) eqn:E5; simpl.
  - split; [discriminate|]. intros [?|[?|(_ & _ & ?)]]; [lia | lia | discriminate].
  - split; [|reflexivity]. intros _. right. right. auto.
Qed.

(** A node that nothing refers to is invisible to [get] and [toArray]. *)
Lemma get_scan_app (r : nat) h h' (counter : Z) (current : option loc) :
  heap_closed h -> ref_closed h current ->
  get_scan r (h ++ h') counter current = get_scan r h counter current.
Proof.
  intros Hh. revert counter current.
  induction r as [|r IH]; intros counter current Hcur; [reflexivity|].
  destruct current as [c|]; [|reflexivity].
  simpl. rewrite next_of_app by (apply Hcur; reflexivity).
  apply IH. apply ref_closed_next. exact Hh.
Qed.

Lemma get_with_node index d s :
  closed s -> get index (with_node d s) = get index s.
Proof.
  intros (Hh & Hhd & _). unfold get, with_node. simpl.
  rewrite get_scan_app by assumption. reflexivity.
Qed.

Lemma toArray_scan_app (fuel : nat) h h' (current : option loc) :
  heap_closed h -> ref_closed h current ->
  toArray_scan fuel (h ++ h') current = toArray_scan fuel h current.
Proof.
  intros Hh. revert current.
  induction fuel as [|f IH]; intros current Hcur; [destruct current; reflexivity|].
  destruct current as [c|]; [|reflexivity].
  simpl. rewrite data_of_app, next_of_app by (apply Hcur; reflexivity).
  rewrite IH by (apply ref_closed_next; exact Hh). reflexivity.
Qed.

(** C7: [set] and [insert] answer [false] exactly when the index is out of
    range or the internal [get] finds no node, and then the list is as it
    was: [set] returns the very same state, and [insert] returns the same
    head, tail and length over the same nodes (the store holds at most the
    unreferenced node it had already built), so that in a reachable state
    [toArray ()] reads the same.  Under the data-model invariants the
    internal lookup cannot fail, so [false] is exactly "index out of range"
    and the state is identical. *)
Theorem set_insert_false_leaves_list index d s :
  ((set index d s).2 = false <-> get index s = None) /\
  ((set index d s).2 = false -> (set index d s).1 = s) /\
  ((insert index d s).2 = false <->
     index < 0 \/ length s < index \/
     (index <> length s /\ index <> 0 /\
      get (index - 1) (with_node d s) = None)) /\
  ((insert index d s).2 = false ->
     head (insert index d s).1 = head s /\
     tail (insert index d s).1 = tail s /\
     length (insert index d s).1 = length s /\
     (heap (insert index d s).1 = heap s \/
      heap (insert index d s).1 = heap s ++ [mkNode d None]) /\
     forall p n, heap s !! p = Some n -> heap (insert index d s).1 !! p = Some n) /\
  (reachable s ->
     ((insert index d s).2 = false <->
        index < 0 \/ length s < index \/
        (index <> length s /\ index <> 0 /\ get (index - 1) s = None)) /\
     ((insert index d s).2 = false ->
        forall fuel, toArray fuel (insert index d s).1 = toArray fuel s)) /\
  (well_formed s ->
     ((set index d s).2 = false <-> index < 0 \/ length s <= index) /\
     ((insert index d s).2 = false <-> index < 0 \/ length s < index) /\
     ((insert index d s).2 = false -> (insert index d s).1 = s)).
Proof.
  split; [apply set_false|].
  split.
  { unfold set. destruct (get index s); simpl; [discriminate | reflexivity]. }
  split; [apply insert_false|].
  split.
  { unfold insert, head, tail, length.
    destruct ((index <? 0) || (length_ s <? index)); [intros _; simpl; auto 6|].
    destruct (index =? length_ s); [discriminate|].
    destruct (index =? 0); [discriminate|].
    destruct (get (index - 1) (with_node d s)); [discriminate|].
    intros _. simpl. repeat split; [right; reflexivity|].
    intros p n Hp. rewrite lookup_app_l; [exact Hp|].
    apply lookup_lt_is_Some_1. eauto. }
  split.
  { intros Hreach. apply reachable_closed in Hreach.
    split.
    - rewrite insert_false, (get_with_node _ d s Hreach). reflexivity.
    - destruct Hreach as (Hh & Hhd & _). unfold insert, toArray.
      destruct ((index <? 0) || (length_ s <? index)); [reflexivity|].
      destruct (index =? length_ s); [discriminate|].
      destruct (index =? 0); [discriminate|].
      destruct (get (index - 1) (with_node d s)); [discriminate|].
      intros _ fuel. simpl. apply toArray_scan_app; assumption. }
  intros (ls & Hc & Hnd & Hlen & Htl). unfold length.
  assert (forall i, 0 <= i < length_ s -> is_Some (get i (with_node d s))) as Hin.
  { intros i Hi.
    refine (proj2 (get_chain (with_node d s) ls i _ Hlen Hi)).
    simpl. apply chain_app. exact Hc. }
  assert ((insert index d s).2 = false <-> index < 0 \/ length_ s < index) as Hins.
  { rewrite insert_false. split; [|tauto].
    intros [?|[?|(Hne & Hnz & Hget)]]; [tauto | tauto |].
    destruct (Z.lt_ge_cases index 0) as [?|Hge]; [tauto|].
    destruct (Z.lt_ge_cases (length_ s) index) as [?|Hle]; [tauto|].
    destruct (Hin (index - 1)) as [x Hx]; [lia | congruence]. }
  split; [|split; [exact Hins|]].
  - rewrite set_false. unfold get.
    destruct (index <? 0) eqn:E1;
      [apply Z.ltb_lt in E1; simpl; tauto | apply Z.ltb_ge in E1].
    destruct (length_ s <=? index) eqn:E2;
      [apply Z.leb_le in E2; simpl; tauto | apply Z.leb_gt in E2].
    split; [|lia]. intros Hnone.
    destruct (proj2 (get_chain s ls index Hc Hlen (conj E1 E2))) as [x Hx].
    unfold get in Hx. rewrite (proj2 (Z.ltb_ge _ _) E1), (proj2 (Z.leb_gt _ _) E2) in Hx.
    simpl in Hx, Hnone. congruence.
  - intros Hf. apply Hins in Hf. unfold insert.
    destruct (index <? 0) eqn:E1; [reflexivity | apply Z.ltb_ge in E1].
    destruct (length_ s <? index) eqn:E2; [reflexivity | apply Z.ltb_ge in E2].
    lia.
Qed.

(** *** [insert] at the length *)

(** On every list state whose length counter is not negative,
    [insert (length (), x)] returns [true] and yields exactly the state that
    [push (x)] yields (same store, head, tail and length). *)
Theorem insert_at_length_is_push x s :
  0 <= length s -> insert (length s) x s = (push x s, true).
Proof.
  unfold length, insert. intros Hlen.
  destruct (length_ s <? 0) eqn:E1; [apply Z.ltb_lt in E1; lia|].
  rewrite Z.ltb_irrefl, Z.eqb_refl. reflexivity.
Qed.

End Properties.

Section Scenarios.

Lemma reachable_list_123 : reachable list_123.
Proof. repeat apply reach_push. apply reach_constructor. Qed.

Lemma reachable_list_pop_push : reachable list_pop_push.
Proof.
  unfold list_pop_push.
  destruct (pop 2 (push 2 (push 1 (@constructor Z)))) as [[s1 r1]|] eqn:E;
    [|vm_compute in E; discriminate].
  apply reach_push. eapply reach_pop; [|exact E].
  repeat apply reach_push. apply reach_constructor.
Qed.

(** C1 fails on the code: after push(1), push(2), push(3), [remove(1)]
    returns the node with data 2 and decrements the length to 2, but the
    node is still linked: [toArray ()] is [1;2;3], not [1;3]. *)
Theorem remove_1_returns_node_but_keeps_it_linked :
  let s' := (remove 1 list_123).1 in
  (forall fuel, toArray (3 + fuel)%nat list_123 = Some [1; 2; 3]) /\
  length list_123 = 3 /\
  node_data s' (remove 1 list_123).2 = Some 2 /\
  length s' = 2 /\
  forall fuel, toArray (3 + fuel)%nat s' = Some [1; 2; 3].
Proof.
  split; [intros fuel; apply toArray_mono; reflexivity|].
  split; [reflexivity|]. split; [reflexivity|]. split; [reflexivity|].
  intros fuel. apply toArray_mono. reflexivity.
Qed.

(** C3 fails on the code: on the one-element list [5] ([length () = 1],
    head and tail the same node), [removeTail ()] never leaves its scan, so
    it returns no node and the list is never emptied. *)
Theorem removeTail_on_5_never_returns :
  let s : t Z := push 5 constructor in
  reachable s /\
  length s = 1 /\ head s = tail s /\ toArray 1 s = Some [5] /\
  forall fuel, removeTail fuel s = None.
Proof.
  split; [apply reach_push, reach_constructor|].
  split; [reflexivity|]. split; [reflexivity|]. split; [reflexivity|].
  intros fuel.
  apply (removeTail_head_is_tail fuel (push 5 constructor) O); reflexivity.
Qed.

(** C4 fails on the code: the length counter leaves the number of nodes
    reachable from the head after [remove] at a positive index (counter 2,
    three nodes), after [removeHead] on a one-element list (counter 0, one
    node) and after a [push] that follows a [pop] (counter 2, one node). *)
Theorem length_counter_leaves_chain_length :
  (let s := (remove 1 list_123).1 in
   reachable s /\ length s = 2 /\
   forall fuel, nodes_from (3 + fuel) (heap s) (head s) = Some 3%nat) /\
  (let s : t Z := (removeHead (push 1 constructor)).1 in
   reachable s /\ length s = 0 /\
   forall fuel, nodes_from (1 + fuel) (heap s) (head s) = Some 1%nat) /\
  (let s := list_pop_push in
   reachable s /\ length s = 2 /\
   forall fuel, nodes_from (1 + fuel) (heap s) (head s) = Some 1%nat).
Proof.
  split; [|split]; (split; [|split; [reflexivity|]]).
  - apply reach_remove, reachable_list_123.
  - intros fuel. apply (nodes_from_mono 3); [reflexivity | lia].
  - apply reach_removeHead, reach_push, reach_constructor.
  - intros fuel. apply (nodes_from_mono 1); [reflexivity | lia].
  - apply reachable_list_pop_push.
  - intros fuel. apply (nodes_from_mono 1); [reflexivity | lia].
Qed.

(** Witness of [removeHead_spec] on the one-element list [5]. *)
Lemma removeHead_spec_witness :
  let s : t Z := push 5 constructor in
  head s = Some O /\
  (removeHead s).2 = Some O /\ length (removeHead s).1 = 0 /\
  head (removeHead s).1 = Some O.
Proof.
  destruct (removeHead_spec (push 5 (@constructor Z)) O eq_refl)
    as (Hr & Hl & _ & Hstay).
  destruct (Hstay eq_refl) as (Hhd & _).
  split; [reflexivity|].
  split; [exact Hr|]. split; [exact Hl | exact Hhd].
Defined.

(** C8 fails on the code: in the reachable state after push(1), push(2),
    pop(), push(3), remove(0) the list reads as the empty array; push(9)
    followed by pop() returns the node with data 9, yet [toArray ()] is
    then [9] and not the empty array it was before the push. *)
Theorem pop_after_push_leaves_pushed_node :
  let s := list_pop_push_remove in
  reachable s /\
  (forall fuel, toArray fuel s = Some []) /\
  (forall fuel, toArray (1 + fuel) (push 9 s) = Some [9]) /\
  forall fuel, exists s' r,
    pop (1 + fuel) (push 9 s) = Some (s', r) /\
    node_data s' r = Some 9 /\
    toArray (1 + fuel) s' = Some [9].
Proof.
  split; [apply reach_remove, reachable_list_pop_push|].
  split; [intros fuel; destruct fuel; reflexivity|].
  split; [intros fuel; apply toArray_mono; reflexivity|].
  intros fuel.
  destruct (pop 1 (push 9 list_pop_push_remove)) as [[s' r]|] eqn:E;
    [|vm_compute in E; discriminate].
  exists s', r.
  split; [apply (pop_mono 1 fuel); exact E|].
  vm_compute in E. injection E as <- <-.
  split; [reflexivity | apply toArray_mono; reflexivity].
Qed.

(** C9 fails on the code: [removeHead ()] on the one-element list leaves
    the head on the removed node with the counter at 0, so a second
    [removeHead ()] returns that node again and takes the counter to -1.
    In that reachable state [insert (length (), 7)] is turned away by its
    index guard: it returns [false] and changes nothing ([toArray ()] stays
    [1]), while [push (7)] appends ([toArray ()] becomes [1; 7]). *)
Theorem insert_at_negative_length_is_rejected :
  let s1 : t Z := (removeHead (push 1 constructor)).1 in
  let s := list_removeHead_twice in
  length s1 = 0 /\ head s1 = Some O /\ (removeHead s1).2 = Some O /\
  reachable s /\
  length s = -1 /\
  insert (length s) 7 s = (s, false) /\
  (forall fuel, toArray (1 + fuel) (insert (length s) 7 s).1 = Some [1]) /\
  (forall fuel, toArray (2 + fuel) (push 7 s) = Some [1; 7]) /\
  length (push 7 s) = 0.
Proof.
  split; [reflexivity|]. split; [reflexivity|]. split; [reflexivity|].
  split; [do 2 apply reach_removeHead; apply reach_push, reach_constructor|].
  split; [reflexivity|]. split; [reflexivity|].
  split; [intros fuel; apply toArray_mono; reflexivity|].
  split; [intros fuel; apply toArray_mono; reflexivity | reflexivity].
Qed.

(** C10 fails on the code: after push(1), push(2), pop(), push(3) the
    counter is 2 but one node is reachable from the head, and [get (1)],
    an index in range, returns no node; after one more push(4) the scan of
    [get (2)] runs off the chain with its counter at 1, so the check
    [counter !== index] after the loop is the branch that answers. *)
Theorem get_in_range_returns_no_node :
  (let s := list_pop_push in
   reachable s /\ length s = 2 /\
   (forall fuel, nodes_from (1 + fuel) (heap s) (head s) = Some 1%nat) /\
   get 1 s = None) /\
  (let s := push 4 list_pop_push in
   reachable s /\ length s = 3 /\
   get_scan (Z.to_nat 2) (heap s) 0 (head s) = (1, None) /\
   get 2 s = None).
Proof.
  split.
  - split; [apply reachable_list_pop_push|].
    split; [reflexivity|]. split; [|reflexivity].
    intros fuel. apply (nodes_from_mono 1); [reflexivity | lia].
  - split; [apply reach_push, reachable_list_pop_push|].
    repeat split.
Qed.

(** Witness of [remove_never_updates_tail] on push(1), push(2). *)
Lemma remove_never_updates_tail_witness :
  let s : t Z := push 2 (push 1 constructor) in
  well_formed s /\ 0 < length s /\
  (remove (length s - 1) s).2 = Some 1%nat /\
  tail (remove (length s - 1) s).1 = Some 1%nat.
Proof.
  set (s := push 2 (push 1 (@constructor Z))).
  assert (well_formed s) as Hwf.
  { exists [0; 1]%nat. split; [simpl; repeat split; lia|].
    split; [compute_done|]. split; reflexivity. }
  assert (0 < length s) as Hpos by reflexivity.
  destruct (proj2 (@remove_never_updates_tail Z) s Hwf Hpos) as (_ & Hret & Htl).
  split; [exact Hwf|]. split; [exact Hpos|].
  split; [exact Hret | rewrite Htl; exact Hret].
Defined.

(** Witness of [set_insert_false_leaves_list] on push(1) with index 5. *)
Lemma set_insert_false_leaves_list_witness :
  let s : t Z := push 1 constructor in
  well_formed s /\
  (set 5 7 s).2 = false /\ (set 5 7 s).1 = s /\
  (insert 5 7 s).2 = false /\ (insert 5 7 s).1 = s.
Proof.
  set (s := push 1 (@constructor Z)).
  assert (well_formed s) as Hwf.
  { exists [0]%nat. split; [simpl; repeat split; lia|].
    split; [compute_done|]. split; reflexivity. }
  destruct (set_insert_false_leaves_list 5 7 s)
    as (_ & Hset & _ & _ & _ & Hwell).
  destruct (Hwell Hwf) as (Hs & Hi & Hsame).
  assert ((set 5 7 s).2 = false) as Hsf by (apply Hs; right; vm_compute; discriminate).
  assert ((insert 5 7 s).2 = false) as Hif by (apply Hi; right; reflexivity).
  split; [exact Hwf|].
  split; [exact Hsf|]. split; [exact (Hset Hsf)|].
  split; [exact Hif | exact (Hsame Hif)].
Defined.

(** Witness of [insert_at_length_is_push] on push(1), push(2). *)
Lemma insert_at_length_is_push_witness :
  let s : t Z := push 2 (push 1 constructor) in
  0 <= length s /\ insert (length s) 3 s = (push 3 s, true).
Proof.
  split; [vm_compute; discriminate|].
  apply (insert_at_length_is_push 3 (push 2 (push 1 constructor))).
  vm_compute; discriminate.
Defined.

End Scenarios.

(** ** The operations on lists that satisfy the data-model invariants *)

Section Refinement.
Context {A : Type}.
Implicit Types (h : list (Node A)) (s : t A) (p q : loc) (index : Z) (d x v : A)
  (ls : list loc) (vs : list A).

(** *** Transport of chains and contents between stores *)

Lemma chain_ext h h' (c : option loc) ls :
  chain h c ls ->
  (forall l, l ∈ ls -> next_of h' l = next_of h l) ->
  (Datatypes.length h <= Datatypes.length h')%nat ->
  chain h' c ls.
Proof.
  revert c. induction ls as [|l ls IH]; intros c Hc Hagree Hlen; [exact Hc|].
  destruct Hc as (-> & Hl & Hrest).
  split; [reflexivity|]. split; [lia|].
  rewrite (Hagree l) by left.
  apply IH; [exact Hrest | | exact Hlen].
  intros l' Hin. apply Hagree. right. exact Hin.
Qed.

Lemma contents_ext h h' ls vs :
  contents h ls vs ->
  (forall l, l ∈ ls -> data_of h' l = data_of h l) ->
  contents h' ls vs.
Proof.
  unfold contents. induction 1 as [|l v ls vs Hl _ IH]; intros Hagree; [constructor|].
  constructor.
  - rewrite (Hagree l) by left. exact Hl.
  - apply IH. intros l' Hin. apply Hagree. right. exact Hin.
Qed.

Lemma next_of_set_data h p q d : next_of (set_data h p d) q = next_of h q.
Proof.
  unfold next_of, set_data. rewrite list_lookup_alter.
  case_decide as E; [subst q|reflexivity].
  destruct (h !! p); reflexivity.
Qed.

Lemma data_of_set_data_eq h p d :
  (p < Datatypes.length h)%nat -> data_of (set_data h p d) p = Some d.
Proof.
  intros Hp. unfold data_of, set_data. rewrite list_lookup_alter_eq.
  destruct (lookup_lt_is_Some_2 h p Hp) as [n ->]. reflexivity.
Qed.

Lemma data_of_set_data_ne h p q d :
  p <> q -> data_of (set_data h p d) q = data_of h q.
Proof.
  intros Hne. unfold data_of, set_data.
  rewrite list_lookup_alter_ne; [reflexivity | exact Hne].
Qed.

Lemma data_of_new h d :
  data_of (h ++ [mkNode d None]) (Datatypes.length h) = Some d.
Proof.
  unfold data_of. rewrite lookup_app_r by lia. rewrite Nat.sub_diag. reflexivity.
Qed.

Lemma next_of_new h d :
  next_of (h ++ [mkNode d None]) (Datatypes.length h) = None.
Proof.
  unfold next_of. rewrite lookup_app_r by lia. rewrite Nat.sub_diag. reflexivity.
Qed.

(** *** Reading a modelled list *)

Lemma toArray_scan_contents h (c : option loc) ls vs :
  chain h c ls -> contents h ls vs ->
  toArray_scan (Datatypes.length ls) h c = Some vs.
Proof.
  intros Hc Hvs. revert c Hc.
  induction Hvs as [|l v ls vs Hl _ IH]; intros c Hc.
  - simpl in Hc. subst c. reflexivity.
  - destruct Hc as (-> & _ & Hrest). simpl.
    rewrite Hl, (IH _ Hrest). reflexivity.
Qed.

Lemma models_length s vs :
  models s vs -> length_ s = Z.of_nat (Datatypes.length vs).
Proof.
  intros (ls & (_ & _ & Hlen & _) & Hvs).
  rewrite Hlen, (Forall2_length _ _ _ Hvs). reflexivity.
Qed.

Lemma models_toArray s vs (k : nat) :
  models s vs -> toArray (Datatypes.length vs + k) s = Some vs.
Proof.
  intros (ls & (Hc & _ & _ & _) & Hvs).
  apply toArray_mono. unfold toArray.
  rewrite <- (Forall2_length _ _ _ Hvs).
  apply toArray_scan_contents; assumption.
Qed.

Lemma models_well_formed s vs : models s vs -> well_formed s.
Proof. intros (ls & Hshape & _). exists ls. exact Hshape. Qed.

(** *** [push] *)

Lemma shape_push d s ls :
  shape s ls -> shape (push d s) (ls ++ [Datatypes.length (heap s)]).
Proof.
  intros (Hc & Hnd & Hlen & Htl).
  assert (NoDup (ls ++ [Datatypes.length (heap s)])) as Hnd'.
  { apply NoDup_app. split; [exact Hnd|]. split; [|apply NoDup_singleton].
    intros l Hin Hin'. apply list_elem_of_singleton in Hin'. subst l.
    pose proof (chain_allocated _ _ _ Hc _ Hin). lia. }
  assert (length_ s + 1 = Z.of_nat (Datatypes.length (ls ++ [Datatypes.length (heap s)])))
    as Hlen' by (rewrite length_app; simpl; lia).
  destruct ls as [|tl ls _] using rev_ind.
  - simpl in Hc, Htl. unfold push, shape. simpl. rewrite Hc, Htl. simpl.
    split; [|split; [exact Hnd'|split; [exact Hlen' | reflexivity]]].
    split; [reflexivity|]. rewrite length_app. simpl. split; [lia|].
    apply next_of_new.
  - rewrite last_snoc in Htl.
    assert (exists first, head_ s = Some first) as (first & Hfirst).
    { destruct ls; destruct Hc as (-> & _); eauto. }
    unfold push, shape. simpl. rewrite Hfirst, Htl. simpl.
    split; [|split; [exact Hnd'|split; [exact Hlen' | symmetry; apply last_snoc]]].
    rewrite <- Hfirst, <- app_assoc. apply chain_push; assumption.
Qed.

Lemma data_of_push_old d s p :
  (p < Datatypes.length (heap s))%nat ->
  data_of (heap (push d s)) p = data_of (heap s) p.
Proof.
  intros Hp. unfold push. simpl.
  destruct (tail_ s); simpl; rewrite ?data_of_set_next; apply data_of_app; exact Hp.
Qed.

Lemma data_of_push_new d s :
  data_of (heap (push d s)) (Datatypes.length (heap s)) = Some d.
Proof.
  unfold push. simpl.
  destruct (tail_ s); simpl; rewrite ?data_of_set_next; apply data_of_new.
Qed.

Lemma models_push d s vs : models s vs -> models (push d s) (vs ++ [d]).
Proof.
  intros (ls & Hshape & Hvs).
  exists (ls ++ [Datatypes.length (heap s)]).
  split; [apply shape_push; exact Hshape|].
  apply Forall2_app.
  - apply (contents_ext (heap s)); [exact Hvs|].
    intros l Hin. apply data_of_push_old.
    destruct Hshape as (Hc & _). exact (chain_allocated _ _ _ Hc _ Hin).
  - constructor; [apply data_of_push_new | constructor].
Qed.

Lemma models_constructor : models (@constructor A) [].
Proof.
  exists []. split; [|constructor].
  repeat split. apply NoDup_nil_2.
Qed.

Lemma models_pushes vs : models (pushes vs) vs.
Proof.
  induction vs as [|v vs IH] using rev_ind; [apply models_constructor|].
  unfold pushes. rewrite foldl_snoc. apply models_push. exact IH.
Qed.

Lemma reachable_pushes vs : reachable (pushes vs).
Proof.
  induction vs as [|v vs IH] using rev_ind; [apply reach_constructor|].
  unfold pushes. rewrite foldl_snoc. apply reach_push. exact IH.
Qed.

(** X1: pushing [v1], ..., [vn] on a new list gives a list that satisfies
    the data-model invariants, whose [toArray ()] is [v1; ...; vn] (within
    [n] loop tests) and whose [length ()] is [n]. *)
Theorem toArray_after_pushes vs :
  models (pushes vs) vs /\
  (forall k, toArray (Datatypes.length vs + k) (pushes vs) = Some vs) /\
  length (pushes vs) = Z.of_nat (Datatypes.length vs).
Proof.
  pose proof (models_pushes vs) as Hm.
  split; [exact Hm|].
  split; [intros k; apply models_toArray; exact Hm | apply models_length; exact Hm].
Qed.

(** X2: on a list that holds [vs], [push (d)] keeps the data-model
    invariants and appends: the list holds [vs ++ [d]], [toArray ()] returns
    it, and [length ()] grows by one. *)
Theorem push_appends d s vs :
  models s vs ->
  models (push d s) (vs ++ [d]) /\
  (forall k, toArray (Datatypes.length vs + 1 + k) (push d s) = Some (vs ++ [d])) /\
  length (push d s) = length s + 1.
Proof.
  intros Hm. pose proof (models_push d s vs Hm) as Hm'.
  split; [exact Hm'|]. split; [|reflexivity].
  intros k. rewrite <- (models_toArray _ _ k Hm').
  rewrite length_app. reflexivity.
Qed.

(** *** [get] and [set] *)

Lemma shape_get s ls index :
  shape s ls -> 0 <= index < length_ s ->
  exists p, get index s = Some p /\ ls !! Z.to_nat index = Some p /\
            (p < Datatypes.length (heap s))%nat.
Proof.
  intros (Hc & _ & Hlen & _) Hidx.
  destruct (get_chain s ls index Hc Hlen Hidx) as (Hget & (p & Hp)).
  exists p. split; [exact Hp|]. rewrite Hp in Hget. split; [symmetry; exact Hget|].
  apply (chain_allocated _ _ _ Hc). eapply list_elem_of_lookup_2. symmetry. exact Hget.
Qed.

(** X3: on a list that holds [vs], [get (index)] returns no node when the
    index is negative or at least [length ()], and otherwise returns the
    node whose data is the element of [vs] at that index. *)
Theorem get_returns_indexed_node s vs index :
  models s vs ->
  (index < 0 \/ length s <= index -> get index s = None) /\
  (0 <= index < length s ->
   exists p v, get index s = Some p /\ node_data s (Some p) = Some v /\
               vs !! Z.to_nat index = Some v).
Proof.
  intros (ls & Hshape & Hvs). unfold length. split.
  - intros Hout. unfold get.
    destruct (index <? 0) eqn:E1; [reflexivity | apply Z.ltb_ge in E1].
    destruct (length_ s <=? index) eqn:E2; [reflexivity | apply Z.leb_gt in E2].
    lia.
  - intros Hidx.
    destruct (shape_get s ls index Hshape Hidx) as (p & Hget & Hp & _).
    destruct (Forall2_lookup_l _ _ _ _ _ Hvs Hp) as (v & Hv & Hdata).
    exists p, v. split; [exact Hget|]. split; [exact Hdata | exact Hv].
Qed.

(** X4: on a list that holds [vs], [set (index, d)] with an index in range
    returns [true], leaves head, tail and length as they were, and the list
    then holds [vs] with the element at that index replaced by [d]. *)
Theorem set_overwrites_element s vs index d :
  models s vs -> 0 <= index < length s ->
  (set index d s).2 = true /\
  models (set index d s).1 (<[Z.to_nat index := d]> vs) /\
  head (set index d s).1 = head s /\
  tail (set index d s).1 = tail s /\
  length (set index d s).1 = length s.
Proof.
  intros (ls & Hshape & Hvs) Hidx. unfold length, head, tail in *.
  destruct (shape_get s ls index Hshape Hidx) as (p & Hget & Hp & Halloc).
  destruct Hshape as (Hc & Hnd & Hlen & Htl).
  unfold set. rewrite Hget. simpl.
  split; [reflexivity|]. split; [|auto].
  exists ls. split.
  - split; [|split; [exact Hnd | split; assumption]]. simpl.
    apply (chain_ext (heap s)); [exact Hc| |unfold set_data; rewrite length_alter; lia].
    intros l _. apply next_of_set_data.
  - simpl. apply Forall2_same_length_lookup_2.
    + rewrite length_insert. exact (Forall2_length _ _ _ Hvs).
    + intros i l v Hl Hv.
      destruct (decide (i = Z.to_nat index)) as [->|Hne].
      * rewrite Hp in Hl. injection Hl as <-.
        rewrite list_lookup_insert_eq in Hv.
        -- injection Hv as <-. apply data_of_set_data_eq. exact Halloc.
        -- rewrite <- (Forall2_length _ _ _ Hvs). apply lookup_lt_is_Some_1. eauto.
      * rewrite list_lookup_insert_ne in Hv by congruence.
        rewrite data_of_set_data_ne.
        -- exact (Forall2_lookup_lr _ _ _ _ _ _ Hvs Hl Hv).
        -- intros <-. apply Hne. exact (NoDup_lookup _ _ _ _ Hnd Hl Hp).
Qed.

(** *** [insert] *)

(** The two writes of the general branch of [insert], on the store that
    already holds the new node. *)
Lemma chain_insert_after h (c : option loc) l1 (prev : loc) l2 d :
  let new := Datatypes.length h in
  let h1 := h ++ [mkNode d None] in
  let h3 := set_next (set_next h1 new (next_of h1 prev)) prev (Some new) in
  chain h c (l1 ++ prev :: l2) -> NoDup (l1 ++ prev :: l2) ->
  chain h3 c (l1 ++ prev :: new :: l2).
Proof.
  intros new h1 h3 Hc Hnd.
  assert (Datatypes.length h3 = S (Datatypes.length h)) as Hlen3.
  { unfold h3, h1. rewrite !length_set_next, length_app. simpl. lia. }
  assert (forall l, (l < Datatypes.length h)%nat -> l <> prev ->
                    next_of h3 l = next_of h l) as Hother.
  { intros l Hl Hne. unfold h3, h1.
    rewrite !next_of_set_next_ne by (unfold new; lia || congruence).
    apply next_of_app. exact Hl. }
  revert c Hc Hnd. induction l1 as [|l l1 IH]; intros c Hc Hnd.
  - destruct Hc as (-> & Hprev & Hrest).
    apply NoDup_cons in Hnd as (Hnotin & Hnd). simpl.
    split; [reflexivity|]. split; [lia|].
    assert (next_of h3 prev = Some new) as ->.
    { unfold h3. apply next_of_set_next_eq.
      unfold h1. rewrite length_set_next, length_app. simpl. lia. }
    split; [reflexivity|]. split; [unfold new; lia|].
    assert (next_of h3 new = next_of h prev) as ->.
    { unfold h3. rewrite next_of_set_next_ne by (unfold new; lia).
      rewrite next_of_set_next_eq by (unfold h1, new; rewrite length_app; simpl; lia).
      unfold h1. apply next_of_app. exact Hprev. }
    apply (chain_ext h); [exact Hrest| |lia].
    intros l Hin. apply Hother.
    + exact (chain_allocated _ _ _ Hrest _ Hin).
    + intros ->. contradiction.
  - destruct Hc as (-> & Hl & Hrest).
    simpl in Hnd. apply NoDup_cons in Hnd as (Hnotin & Hnd). simpl.
    split; [reflexivity|]. split; [lia|].
    rewrite Hother; [exact (IH _ Hrest Hnd) | exact Hl |].
    intros ->. apply Hnotin. apply elem_of_app. right. left.
Qed.

Lemma last_insert_before ls (i : nat) (new : loc) :
  (i < Datatypes.length ls)%nat ->
  last (take i ls ++ new :: drop i ls) = last ls.
Proof.
  intros Hi. rewrite <- (take_drop i ls) at 3.
  destruct (drop i ls) as [|y rest] eqn:E.
  - apply (f_equal Datatypes.length) in E. rewrite length_drop in E. simpl in E. lia.
  - rewrite !last_app_cons. apply last_cons_cons.
Qed.

Lemma models_insert s vs index d :
  models s vs -> 0 <= index <= length_ s ->
  (insert index d s).2 = true /\
  models (insert index d s).1
         (take (Z.to_nat index) vs ++ d :: drop (Z.to_nat index) vs).
Proof.
  intros Hm Hidx. pose proof Hm as (ls & Hshape & Hvs).
  pose proof Hshape as (Hc & Hnd & Hlen & Htl).
  pose proof (Forall2_length _ _ _ Hvs) as Hlenvs.
  pose proof (chain_allocated _ _ _ Hc) as Halloc.
  unfold insert.
  destruct (index <? 0) eqn:E1; [apply Z.ltb_lt in E1; lia | clear E1].
  destruct (length_ s <? index) eqn:E2; [apply Z.ltb_lt in E2; lia | clear E2].
  simpl orb. cbv iota.
  destruct (index =? length_ s) eqn:E3.
  { apply Z.eqb_eq in E3. simpl. split; [reflexivity|].
    rewrite take_ge, drop_ge by lia. apply models_push. exact Hm. }
  apply Z.eqb_neq in E3.
  set (i := Z.to_nat index). set (new := Datatypes.length (heap s)).
  assert (i < Datatypes.length ls)%nat as Hi by (unfold i; lia).
  assert (NoDup (take i ls ++ new :: drop i ls)) as Hnd'.
  { rewrite <- Permutation_middle, take_drop. apply NoDup_cons.
    split; [|exact Hnd]. intros Hin. specialize (Halloc _ Hin). unfold new in Halloc. lia. }
  assert (length_ s + 1 = Z.of_nat (Datatypes.length (take i ls ++ new :: drop i ls)))
    as Hlen'.
  { rewrite length_app. simpl. rewrite length_take, length_drop. lia. }
  assert (forall h', (forall l, l ∈ ls -> data_of h' l = data_of (heap s) l) ->
                     data_of h' new = Some d ->
                     contents h' (take i ls ++ new :: drop i ls)
                              (take i vs ++ d :: drop i vs)) as Hcontents.
  { intros h' Hold Hnew. apply Forall2_app.
    - apply Forall2_take. apply (contents_ext (heap s)); assumption.
    - constructor; [exact Hnew|].
      apply Forall2_drop. apply (contents_ext (heap s)); assumption. }
  destruct (index =? 0) eqn:E4.
  - apply Z.eqb_eq in E4. simpl. split; [reflexivity|].
    assert (i = O) as Hi0 by (unfold i; lia).
    exists (take i ls ++ new :: drop i ls). split.
    + split; [|split; [exact Hnd'|split; [simpl; exact Hlen'|]]].
      * simpl. rewrite Hi0, take_0, drop_0. simpl.
        split; [reflexivity|]. rewrite length_set_next, length_app. simpl.
        split; [unfold new; lia|].
        rewrite next_of_set_next_eq by (rewrite length_app; simpl; lia).
        apply (chain_ext (heap s)); [exact Hc| |rewrite length_set_next, length_app; lia].
        intros l Hin. specialize (Halloc _ Hin).
        rewrite next_of_set_next_ne by lia. apply next_of_app. exact Halloc.
      * simpl. rewrite Htl. symmetry. apply last_insert_before. exact Hi.
    + apply Hcontents; simpl.
      * intros l Hin. rewrite data_of_set_next. apply data_of_app. exact (Halloc _ Hin).
      * rewrite data_of_set_next. apply data_of_new.
  - apply Z.eqb_neq in E4.
    assert (shape (with_node d s) ls) as Hshape1.
    { split; [simpl; apply chain_app; exact Hc|]. split; [exact Hnd|]. split; assumption. }
    destruct (shape_get (with_node d s) ls (index - 1) Hshape1) as (prev & Hget & Hprev & _);
      [simpl; lia|].
    rewrite Hget. simpl. split; [reflexivity|].
    assert (Z.to_nat (index - 1) = (i - 1)%nat) as Hi1 by (unfold i; lia).
    rewrite Hi1 in Hprev.
    assert (take i ls = take (i - 1) ls ++ [prev]) as Htake.
    { replace i with (S (i - 1)) at 1 by lia. apply take_S_r. exact Hprev. }
    assert (ls = take (i - 1) ls ++ prev :: drop i ls) as Hsplit.
    { rewrite <- (take_drop_middle ls (i - 1) prev Hprev) at 1.
      replace (S (i - 1)) with i by lia. reflexivity. }
    exists (take i ls ++ new :: drop i ls). split.
    + split; [|split; [exact Hnd'|split; [simpl; exact Hlen'|]]].
      * simpl. rewrite Htake, <- app_assoc. simpl.
        apply chain_insert_after; rewrite <- Hsplit; assumption.
      * simpl. rewrite Htl. symmetry. apply last_insert_before. exact Hi.
    + apply Hcontents; simpl.
      * intros l Hin. rewrite !data_of_set_next. apply data_of_app. exact (Halloc _ Hin).
      * rewrite !data_of_set_next. apply data_of_new.
Qed.

(** X5: on a list that holds [vs], [insert (index, d)] with
    [0 <= index <= length ()] returns [true] and keeps the data-model
    invariants; the list then holds [vs] with [d] placed at that index and
    the later elements shifted by one, [toArray ()] returns that sequence
    and [length ()] has grown by one. *)
Theorem insert_places_element s vs index d :
  models s vs -> 0 <= index <= length s ->
  let vs' := take (Z.to_nat index) vs ++ d :: drop (Z.to_nat index) vs in
  (insert index d s).2 = true /\
  models (insert index d s).1 vs' /\
  (forall k, toArray (Datatypes.length vs + 1 + k) (insert index d s).1 = Some vs') /\
  length (insert index d s).1 = length s + 1.
Proof.
  intros Hm Hidx vs'.
  destruct (models_insert s vs index d Hm Hidx) as (Htrue & Hm').
  pose proof (models_length _ _ Hm) as Hlen.
  assert (Datatypes.length vs' = (Datatypes.length vs + 1)%nat) as Hlen'.
  { unfold vs', length in *. rewrite length_app. simpl.
    rewrite length_take, length_drop. lia. }
  split; [exact Htrue|]. split; [exact Hm'|]. split.
  - intros k. rewrite <- Hlen'. apply (models_toArray _ vs'). exact Hm'.
  - unfold length. rewrite (models_length _ _ Hm'), Hlen.
    fold vs'. rewrite Hlen'. lia.
Qed.

(** *** Removal at the front *)

Lemma models_front s v vs :
  models s (v :: vs) ->
  exists p ls,
    shape s (p :: ls) /\ data_of (heap s) p = Some v /\
    contents (heap s) ls vs /\ head_ s = Some p /\
    chain (heap s) (next_of (heap s) p) ls.
Proof.
  intros (ls & Hshape & Hvs).
  apply Forall2_cons_inv_r in Hvs as (p & ls' & Hp & Hvs & ->).
  exists p, ls'. pose proof Hshape as ((Hhd & _ & Hrest) & _).
  split; [exact Hshape|]. split; [exact Hp|]. split; [exact Hvs|].
  split; [exact Hhd | exact Hrest].
Qed.

Lemma shape_behead s (p : loc) ls :
  shape s (p :: ls) -> ls <> [] ->
  shape (mkList (heap s) (next_of (heap s) p) (tail_ s) (length_ s - 1)) ls.
Proof.
  intros ((_ & _ & Hrest) & Hnd & Hlen & Htl) Hne.
  apply NoDup_cons in Hnd as (_ & Hnd).
  split; [exact Hrest|]. split; [exact Hnd|]. simpl in *.
  split; [lia|]. rewrite Htl. destruct ls; [contradiction | apply last_cons_cons].
Qed.

(** X6: on a list that holds [v :: vs], [remove (0)] returns the head node,
    which carries [v]; [toArray ()] then returns [vs] and [length ()] is one
    less.  When [vs] is not empty the data-model invariants are kept; when
    the removed node was the only one, the head becomes absent but the tail
    still refers to the removed node. *)
Theorem remove_0_drops_first s v vs :
  models s (v :: vs) ->
  exists p,
    (remove 0 s).2 = Some p /\ head s = Some p /\
    node_data s (Some p) = Some v /\
    (forall k, toArray (Datatypes.length vs + k) (remove 0 s).1 = Some vs) /\
    length (remove 0 s).1 = length s - 1 /\
    (vs <> [] -> models (remove 0 s).1 vs) /\
    (vs = [] -> head (remove 0 s).1 = None /\ tail (remove 0 s).1 = Some p).
Proof.
  intros Hm. pose proof (models_length _ _ Hm) as Hlen. simpl in Hlen.
  destruct (models_front _ _ _ Hm) as (p & ls & Hshape & Hp & Hvs & Hhd & Hrest).
  exists p. unfold remove, length, head, tail.
  destruct (0 <? 0) eqn:E1; [discriminate|].
  destruct (length_ s <=? 0) eqn:E2; [apply Z.leb_le in E2; lia|].
  simpl. rewrite Hhd. simpl.
  split; [reflexivity|]. split; [reflexivity|]. split; [exact Hp|].
  split; [|split; [reflexivity|split]].
  - intros k. apply toArray_mono. unfold toArray. simpl.
    rewrite <- (Forall2_length _ _ _ Hvs).
    apply toArray_scan_contents; assumption.
  - intros Hne. exists ls. split; [|exact Hvs].
    apply shape_behead; [exact Hshape|].
    intros ->. apply Forall2_nil_inv_l in Hvs. contradiction.
  - intros ->. apply Forall2_nil_inv_r in Hvs. subst ls.
    simpl in Hrest. destruct Hshape as (_ & _ & _ & Htl).
    split; [exact Hrest | exact Htl].
Qed.

(** X7: on a list that holds at least two elements [v :: v' :: vs],
    [removeHead ()] does what [remove (0)] does: it returns the head node,
    which carries [v], keeps the data-model invariants, and the list then
    holds [v' :: vs]. *)
Theorem removeHead_drops_first s v v' vs :
  models s (v :: v' :: vs) ->
  removeHead s = remove 0 s /\
  node_data s (removeHead s).2 = Some v /\
  models (removeHead s).1 (v' :: vs) /\
  (forall k, toArray (S (Datatypes.length vs) + k) (removeHead s).1 = Some (v' :: vs)) /\
  length (removeHead s).1 = length s - 1.
Proof.
  intros Hm. pose proof (models_length _ _ Hm) as Hlen. simpl in Hlen.
  destruct (models_front _ _ _ Hm) as (p & ls & Hshape & Hp & Hvs & Hhd & Hrest).
  assert (exists p', next_of (heap s) p = Some p') as (p' & Hnext).
  { apply Forall2_cons_inv_r in Hvs as (p' & ls' & _ & _ & ->).
    destruct Hrest as (-> & _). eauto. }
  assert (removeHead s =
          (mkList (heap s) (next_of (heap s) p) (tail_ s) (length_ s - 1), Some p))
    as Hrun.
  { unfold removeHead. rewrite Hhd, Hnext. reflexivity. }
  assert (models (removeHead s).1 (v' :: vs)) as Hm'.
  { rewrite Hrun. exists ls. split; [|exact Hvs].
    apply shape_behead; [exact Hshape|].
    intros ->. apply Forall2_nil_inv_l in Hvs. discriminate. }
  split.
  - rewrite Hrun. unfold remove.
    destruct (length_ s <=? 0) eqn:E2; [apply Z.leb_le in E2; lia|].
    simpl. rewrite Hhd. reflexivity.
  - split; [rewrite Hrun; exact Hp|]. split; [exact Hm'|].
    split; [intros k; apply (models_toArray _ (v' :: vs)); exact Hm'|].
    rewrite Hrun. reflexivity.
Qed.

(** X8: on a list that holds [vs], [remove (index)] with
    [0 < index < length ()] returns the node at that index and decrements
    the length counter, and changes nothing else: store, head and tail are
    as before, so [toArray ()] still returns all of [vs]. *)
Theorem remove_positive_only_decrements s vs index :
  models s vs -> 0 < index < length s ->
  (exists p v, (remove index s).2 = Some p /\ node_data s (Some p) = Some v /\
               vs !! Z.to_nat index = Some v) /\
  (remove index s).1 = mkList (heap s) (head_ s) (tail_ s) (length_ s - 1) /\
  forall k, toArray (Datatypes.length vs + k) (remove index s).1 = Some vs.
Proof.
  intros Hm Hidx. pose proof Hm as (ls & Hshape & Hvs). unfold length in *.
  destruct (shape_get s ls (index - 1) Hshape) as (prev & Hget & Hprev & _); [lia|].
  destruct (shape_get s ls index Hshape) as (p & _ & Hp & _); [lia|].
  pose proof Hshape as (Hc & _).
  assert (next_of (heap s) prev = Some p) as Hnext.
  { rewrite (chain_next _ _ _ _ _ Hc Hprev).
    replace (S (Z.to_nat (index - 1))) with (Z.to_nat index) by lia. exact Hp. }
  assert (remove index s =
          (mkList (heap s) (head_ s) (tail_ s) (length_ s - 1), Some p)) as Hrun.
  { unfold remove.
    destruct (index <? 0) eqn:E1; [apply Z.ltb_lt in E1; lia|].
    destruct (length_ s <=? index) eqn:E2; [apply Z.leb_le in E2; lia|].
    destruct (index =? 0) eqn:E3; [apply Z.eqb_eq in E3; lia|].
    simpl. rewrite Hget, Hnext, <- Hnext, set_next_same. reflexivity. }
  rewrite Hrun. simpl.
  destruct (Forall2_lookup_l _ _ _ _ _ Hvs Hp) as (v & Hv & Hdata).
  split; [exists p, v; auto|]. split; [reflexivity|].
  intros k. exact (models_toArray s vs k Hm).
Qed.

(** *** Removal at the back *)

Lemma chain_cut h (c : option loc) l1 (prev : loc) l2 :
  chain h c (l1 ++ prev :: l2) -> NoDup (l1 ++ prev :: l2) ->
  chain (set_next h prev None) c (l1 ++ [prev]).
Proof.
  revert c. induction l1 as [|l l1 IH]; intros c Hc Hnd.
  - destruct Hc as (-> & Hprev & _). simpl. rewrite length_set_next.
    split; [reflexivity|]. split; [exact Hprev|].
    apply next_of_set_next_eq. exact Hprev.
  - destruct Hc as (-> & Hl & Hrest).
    simpl in Hnd. apply NoDup_cons in Hnd as (Hnotin & Hnd).
    simpl. rewrite length_set_next.
    split; [reflexivity|]. split; [exact Hl|].
    rewrite next_of_set_next_ne; [exact (IH _ Hrest Hnd)|].
    intros ->. apply Hnotin. apply elem_of_app. right. left.
Qed.

(** The chain that starts at a reference is unique. *)
Lemma chain_det h (c : option loc) ls ls' :
  chain h c ls -> chain h c ls' -> ls = ls'.
Proof.
  revert c ls'. induction ls as [|l ls IH]; intros c ls' Hc Hc'.
  - simpl in Hc. subst c. destruct ls'; [reflexivity | destruct Hc'; discriminate].
  - destruct Hc as (-> & _ & Hrest).
    destruct ls' as [|l' ls']; [discriminate Hc'|].
    destruct Hc' as (Heq & _ & Hrest'). injection Heq as <-.
    f_equal. exact (IH _ _ Hrest Hrest').
Qed.

Lemma models_back s vs v' v :
  models s (vs ++ [v'; v]) ->
  exists ls (prev tl first : loc),
    shape s (ls ++ [prev; tl]) /\ head_ s = Some first /\ tail_ s = Some tl /\
    contents (heap s) (ls ++ [prev]) (vs ++ [v']) /\
    data_of (heap s) tl = Some v /\
    Datatypes.length ls = Datatypes.length vs.
Proof.
  intros (ls & Hshape & Hvs).
  apply Forall2_app_inv_r in Hvs as (ls0 & lrest & Hvs0 & Hrest & ->).
  apply Forall2_cons_inv_r in Hrest as (prev & lrest' & Hprev & Hrest & ->).
  apply Forall2_cons_inv_r in Hrest as (tl & lnil & Htl & Hnil & ->).
  apply Forall2_nil_inv_r in Hnil. subst lnil.
  pose proof Hshape as (Hc & _ & _ & Htail).
  assert (exists first, head_ s = Some first) as (first & Hfirst).
  { destruct ls0; destruct Hc as (-> & _); eauto. }
  exists ls0, prev, tl, first.
  split; [exact Hshape|]. split; [exact Hfirst|].
  split; [rewrite Htail; change [prev; tl] with ([prev] ++ [tl]);
          rewrite app_assoc; apply last_snoc|].
  split; [apply Forall2_app; [exact Hvs0 | constructor; [exact Hprev | constructor]]|].
  split; [exact Htl | exact (Forall2_length _ _ _ Hvs0)].
Qed.

(** The state both [pop] and [removeTail] leave behind the node before the
    tail: its link is cleared. *)
Lemma cut_before_tail s ls (prev tl : loc) vs :
  shape s (ls ++ [prev; tl]) -> contents (heap s) (ls ++ [prev]) vs ->
  chain (set_next (heap s) prev None) (head_ s) (ls ++ [prev]) /\
  NoDup (ls ++ [prev]) /\
  length_ s - 1 = Z.of_nat (Datatypes.length (ls ++ [prev])) /\
  contents (set_next (heap s) prev None) (ls ++ [prev]) vs /\
  prev <> tl.
Proof.
  intros (Hc & Hnd & Hlen & _) Hvs.
  split; [apply (chain_cut _ _ _ _ [tl]); assumption|].
  change [prev; tl] with ([prev] ++ [tl]) in Hnd, Hlen.
  rewrite app_assoc in Hnd, Hlen.
  pose proof Hnd as Hnd0. apply NoDup_app in Hnd0 as (Hnd' & Hdisj & _).
  split; [exact Hnd'|].
  split; [rewrite length_app in Hlen; simpl in Hlen; lia|].
  split.
  - apply (contents_ext (heap s)); [exact Hvs|].
    intros l _. apply data_of_set_next.
  - intros ->. apply (Hdisj tl).
    + apply elem_of_app. right. left.
    + left.
Qed.

(** X9: on a list that holds at least two elements [vs ++ [v'; v]],
    [removeTail ()] returns (within [length () - 1] loop tests) the tail
    node, which carries [v], keeps the data-model invariants, and the list
    then holds [vs ++ [v']]. *)
Theorem removeTail_drops_last s vs v' v :
  models s (vs ++ [v'; v]) ->
  exists s' p,
    (forall k, removeTail (S (Datatypes.length vs) + k) s = Some (s', Some p)) /\
    tail s = Some p /\ node_data s (Some p) = Some v /\
    models s' (vs ++ [v']) /\
    (forall k, toArray (S (Datatypes.length vs) + k) s' = Some (vs ++ [v'])) /\
    length s' = length s - 1.
Proof.
  intros Hm.
  destruct (models_back _ _ _ _ Hm)
    as (ls & prev & tl & first & Hshape & Hfirst & Htl & Hvs & Hdata & Hlenls).
  destruct (cut_before_tail _ _ _ _ _ Hshape Hvs) as (Hc' & Hnd' & Hlen' & Hvs' & Hne).
  pose proof Hshape as (Hc & Hnd & _).
  set (s' := mkList (set_next (heap s) prev None) (head_ s) (Some prev) (length_ s - 1)).
  assert (models s' (vs ++ [v'])) as Hm'.
  { exists (ls ++ [prev]). split; [|exact Hvs'].
    split; [exact Hc'|]. split; [exact Hnd'|]. split; [exact Hlen'|].
    simpl. symmetry. apply last_snoc. }
  exists s', tl.
  split; [|split; [exact Htl|split; [exact Hdata|split; [exact Hm'|split]]]].
  - intros k. unfold removeTail. rewrite Htl, Hfirst.
    rewrite Hfirst in Hc.
    rewrite (removeTail_scan_mono (S (Datatypes.length ls)) _ _ _ _ prev).
    + unfold s'. rewrite Hfirst. reflexivity.
    + apply removeTail_scan_chain; assumption.
    + lia.
  - intros k. rewrite <- (models_toArray _ _ k Hm').
    rewrite length_app. simpl. f_equal. lia.
  - reflexivity.
Qed.

(** X10: on a list that holds exactly one element [v], [pop ()] returns
    the node that carries [v] and resets the list: head and tail absent,
    length 0, and the data-model invariants hold for the empty sequence. *)
Theorem pop_single_empties s v (fuel : nat) :
  models s [v] ->
  exists p,
    pop fuel s = Some (mkList (heap s) None None 0, Some p) /\
    node_data s (Some p) = Some v /\
    models (mkList (heap s) None None 0) [].
Proof.
  intros Hm. pose proof (models_length _ _ Hm) as Hlen. simpl in Hlen.
  destruct (models_front _ _ _ Hm) as (p & ls & Hshape & Hp & Hvs & Hhd & _).
  apply Forall2_nil_inv_r in Hvs. subst ls.
  destruct Hshape as (_ & _ & _ & Htl). simpl in Htl.
  exists p. split; [|split; [exact Hp|]].
  - unfold pop. rewrite Hhd, Htl, Hlen.
    rewrite bool_decide_eq_true_2 by reflexivity. reflexivity.
  - exists []. split; [|constructor]. repeat split. apply NoDup_nil_2.
Qed.

(** X11: on a list that holds at least two elements [vs ++ [v'; v]],
    [pop ()] returns (within [length () - 1] loop tests) the tail node,
    which carries [v]; [toArray ()] then returns [vs ++ [v']] and
    [length ()] is one less, but the tail still refers to the returned
    node, so the result does not satisfy the data-model invariants. *)
Theorem pop_drops_last_keeps_tail s vs v' v :
  models s (vs ++ [v'; v]) ->
  exists s' p,
    (forall k, pop (S (Datatypes.length vs) + k) s = Some (s', Some p)) /\
    node_data s (Some p) = Some v /\
    (forall k, toArray (S (Datatypes.length vs) + k) s' = Some (vs ++ [v'])) /\
    length s' = length s - 1 /\
    tail s' = Some p /\ tail s = Some p /\
    ~ well_formed s'.
Proof.
  intros Hm.
  destruct (models_back _ _ _ _ Hm)
    as (ls & prev & tl & first & Hshape & Hfirst & Htl & Hvs & Hdata & Hlenls).
  destruct (cut_before_tail _ _ _ _ _ Hshape Hvs) as (Hc' & Hnd' & Hlen' & Hvs' & Hne).
  pose proof Hshape as (Hc & Hnd & Hlen & _).
  set (s' := mkList (set_next (heap s) prev None) (head_ s) (tail_ s) (length_ s - 1)).
  exists s', tl.
  split; [|split; [exact Hdata|split; [|split; [reflexivity|split; [exact Htl|split; [exact Htl|]]]]]].
  - intros k. unfold pop. rewrite Hfirst, Htl.
    assert (bool_decide (first = tl) && (length_ s =? 1) = false) as ->.
    { apply andb_false_intro2. apply Z.eqb_neq.
      rewrite Hlen, length_app. simpl. lia. }
    rewrite Hfirst in Hc.
    rewrite (pop_scan_mono (S (Datatypes.length ls)) _ _ _ _ prev).
    + unfold s'. rewrite Hfirst, Htl. reflexivity.
    + apply pop_scan_chain; assumption.
    + lia.
  - intros k.
    replace (S (Datatypes.length vs)) with (Datatypes.length (ls ++ [prev]))
      by (rewrite length_app; simpl; lia).
    apply toArray_mono. unfold toArray. apply toArray_scan_contents; assumption.
  - intros (ls' & Hc'' & _ & _ & Htl'').
    simpl in Hc'', Htl''.
    rewrite (chain_det _ _ _ _ Hc'' Hc'), last_snoc, Htl in Htl''.
    injection Htl'' as <-. contradiction.
Qed.

(** *** [insert] at the front, then [remove] at the front *)

(** X12: on a list that holds [vs], [insert (0, x)] followed by
    [remove (0)] returns the node that carries [x] and restores what the
    list reads as: [toArray ()] returns [vs] again and [length ()] is what
    it was; when [vs] is not empty the data-model invariants hold again. *)
Theorem insert_0_remove_0_round_trip s vs x :
  models s vs ->
  let s1 := (insert 0 x s).1 in
  node_data s1 (remove 0 s1).2 = Some x /\
  (forall k, toArray (Datatypes.length vs + k) (remove 0 s1).1 = Some vs) /\
  length (remove 0 s1).1 = length s /\
  (vs <> [] -> models (remove 0 s1).1 vs).
Proof.
  intros Hm s1. pose proof (models_length _ _ Hm) as Hlen.
  destruct (models_insert s vs 0 x Hm) as (_ & Hm1); [lia|].
  change (Z.to_nat 0) with O in Hm1. rewrite take_0, drop_0 in Hm1.
  simpl in Hm1. fold s1 in Hm1.
  pose proof (models_length _ _ Hm1) as Hlen1. simpl in Hlen1.
  destruct (models_front _ _ _ Hm1) as (p & ls & Hshape & Hp & Hvs & Hhd & Hrest).
  assert (remove 0 s1 =
          (mkList (heap s1) (next_of (heap s1) p) (tail_ s1) (length_ s1 - 1), Some p))
    as Hrun.
  { unfold remove.
    destruct (length_ s1 <=? 0) eqn:E2; [apply Z.leb_le in E2; lia|].
    simpl. rewrite Hhd. reflexivity. }
  rewrite Hrun. simpl.
  split; [exact Hp|]. split; [|split].
  - intros k. apply toArray_mono. unfold toArray. simpl.
    rewrite <- (Forall2_length _ _ _ Hvs).
    apply toArray_scan_contents; assumption.
  - unfold length. simpl. lia.
  - intros Hne. exists ls. split; [|exact Hvs].
    apply shape_behead; [exact Hshape|].
    intros ->. apply Forall2_nil_inv_l in Hvs. contradiction.
Qed.

(** *** No cycle in a reachable state *)

Lemma chain_suffix h (c : option loc) la (l : loc) lb :
  chain h c (la ++ l :: lb) -> chain h (Some l) (l :: lb).
Proof.
  revert c. induction la as [|a la IH]; intros c Hc.
  - destruct Hc as (_ & Hrest). split; [reflexivity | exact Hrest].
  - destruct Hc as (_ & _ & Hrest). exact (IH _ Hrest).
Qed.

Lemma chain_NoDup h (c : option loc) ls : chain h c ls -> NoDup ls.
Proof.
  revert c. induction ls as [|l ls IH]; intros c Hc; [apply NoDup_nil_2|].
  pose proof Hc as (-> & Hl & Hrest).
  apply NoDup_cons. split; [|exact (IH _ Hrest)].
  intros Hin. apply list_elem_of_split in Hin as (la & lb & ->).
  pose proof (chain_suffix _ _ _ _ _ Hrest) as Hsuf.
  pose proof (chain_det _ _ _ _ Hc Hsuf) as Heq.
  apply (f_equal Datatypes.length) in Heq.
  simpl in Heq. rewrite length_app in Heq. simpl in Heq. lia.
Qed.

Lemma chain_after_set_next h p (w c : option loc) lx :
  chain h c lx ->
  (forall q, w = Some q -> exists lq, chain (set_next h p w) (Some q) lq) ->
  exists lx', chain (set_next h p w) c lx'.
Proof.
  intros Hc Hv. revert c Hc. induction lx as [|l lx IH]; intros c Hc.
  - exists []. exact Hc.
  - destruct Hc as (-> & Hl & Hrest).
    destruct (decide (l = p)) as [->|Hne].
    + destruct w as [q|].
      * destruct (Hv q eq_refl) as (lq & Hlq). exists (p :: lq).
        split; [reflexivity|]. rewrite length_set_next. split; [exact Hl|].
        rewrite next_of_set_next_eq by exact Hl. exact Hlq.
      * exists [p]. split; [reflexivity|]. rewrite length_set_next.
        split; [exact Hl|]. apply next_of_set_next_eq. exact Hl.
    + destruct (IH _ Hrest) as (lx' & Hlx'). exists (l :: lx').
      split; [reflexivity|]. rewrite length_set_next. split; [exact Hl|].
      rewrite next_of_set_next_ne by congruence. exact Hlx'.
Qed.

Lemma acyclic_set_next h p (w : option loc) :
  acyclic h ->
  (forall q, w = Some q -> exists lq, chain (set_next h p w) (Some q) lq) ->
  acyclic (set_next h p w).
Proof.
  intros Hac Hv x Hx. rewrite length_set_next in Hx.
  destruct (Hac x Hx) as (lx & Hlx).
  exact (chain_after_set_next _ _ _ _ _ Hlx Hv).
Qed.

Lemma acyclic_new_Node h d : acyclic h -> acyclic (h ++ [mkNode d None]).
Proof.
  intros Hac x Hx. rewrite length_app in Hx. simpl in Hx.
  destruct (decide (x < Datatypes.length h)%nat) as [Hlt|Hge].
  - destruct (Hac x Hlt) as (lx & Hlx). exists lx. apply chain_app. exact Hlx.
  - assert (x = Datatypes.length h) as -> by lia.
    exists [Datatypes.length h]. split; [reflexivity|].
    rewrite length_app. simpl. split; [lia | apply next_of_new].
Qed.

Lemma acyclic_set_data h p d : acyclic h -> acyclic (set_data h p d).
Proof.
  intros Hac x Hx. unfold set_data in Hx. rewrite length_alter in Hx.
  destruct (Hac x Hx) as (lx & Hlx). exists lx.
  apply (chain_ext h); [exact Hlx| |unfold set_data; rewrite length_alter; lia].
  intros l _. apply next_of_set_data.
Qed.

(** A chain of old nodes is untouched by writes to a node outside it. *)
Lemma chain_old h h' (c : option loc) ls :
  chain h c ls ->
  (forall l, (l < Datatypes.length h)%nat -> l ∈ ls -> next_of h' l = next_of h l) ->
  (Datatypes.length h <= Datatypes.length h')%nat ->
  chain h' c ls.
Proof.
  intros Hc Hagree Hlen. apply (chain_ext h); [exact Hc| |exact Hlen].
  intros l Hin. apply Hagree; [|exact Hin]. exact (chain_allocated _ _ _ Hc _ Hin).
Qed.

Lemma acyclic_push d s : closed s -> acyclic (heap s) -> acyclic (heap (push d s)).
Proof.
  intros (_ & _ & Htl) Hac. unfold push. simpl.
  destruct (tail_ s) as [tl|]; simpl; [|apply acyclic_new_Node; exact Hac].
  specialize (Htl tl eq_refl).
  apply acyclic_set_next; [apply acyclic_new_Node; exact Hac|].
  intros q [= <-]. exists [Datatypes.length (heap s)].
  split; [reflexivity|]. rewrite length_set_next, length_app. simpl.
  split; [lia|]. rewrite next_of_set_next_ne by lia. apply next_of_new.
Qed.

Lemma acyclic_insert index d s :
  closed s -> acyclic (heap s) -> acyclic (heap (insert index d s).1).
Proof.
  intros Hs Hac. pose proof Hs as (Hh & Hhd & Htl). unfold insert.
  destruct ((index <? 0) || (length_ s <? index)); [exact Hac|].
  destruct (index =? length_ s); [apply acyclic_push; assumption|].
  set (new := Datatypes.length (heap s)).
  set (h1 := heap s ++ [mkNode d None]).
  assert (forall q lq (w : option loc), (q < Datatypes.length (heap s))%nat ->
            chain (heap s) (Some q) lq ->
            chain (set_next h1 new w) (Some q) lq) as Hkeep.
  { intros q lq w Hq Hlq. apply (chain_old (heap s)); [exact Hlq| |].
    - intros l Hl _. rewrite next_of_set_next_ne by (unfold new; lia).
      apply next_of_app. exact Hl.
    - rewrite length_set_next. unfold h1. rewrite length_app. lia. }
  destruct (index =? 0).
  - simpl. fold h1. fold new.
    apply acyclic_set_next; [apply acyclic_new_Node; exact Hac|].
    intros q Hq. specialize (Hhd q Hq).
    destruct (Hac q Hhd) as (lq & Hlq). exists lq. apply Hkeep; assumption.
  - rewrite (get_with_node _ d s Hs).
    pose proof (get_closed (index - 1) s Hs) as Hget.
    destruct (get (index - 1) s) as [prev|]; [|apply acyclic_new_Node; exact Hac].
    specialize (Hget prev eq_refl). simpl. fold h1. fold new.
    assert (next_of h1 prev = next_of (heap s) prev) as Hnext
      by (apply next_of_app; exact Hget).
    rewrite Hnext.
    assert (acyclic (set_next h1 new (next_of (heap s) prev))) as Hac2.
    { apply acyclic_set_next; [apply acyclic_new_Node; exact Hac|].
      intros q Hq. pose proof (Hh _ _ Hq) as Hqlt.
      destruct (Hac q Hqlt) as (lq & Hlq). exists lq. apply Hkeep; assumption. }
    apply acyclic_set_next; [exact Hac2|].
    intros q [= <-].
    set (h3 := set_next (set_next h1 new (next_of (heap s) prev)) prev (Some new)).
    assert (Datatypes.length h3 = S (Datatypes.length (heap s))) as Hlen3.
    { unfold h3, h1. rewrite !length_set_next, length_app. simpl. lia. }
    assert (next_of h3 new = next_of (heap s) prev) as Hnew.
    { unfold h3. rewrite next_of_set_next_ne by (unfold new; lia).
      apply next_of_set_next_eq. unfold h1, new. rewrite length_app. simpl. lia. }
    destruct (next_of (heap s) prev) as [q|] eqn:Eq.
    + pose proof (Hh _ _ Eq) as Hqlt.
      destruct (Hac q Hqlt) as (lq & Hlq).
      assert (chain (heap s) (Some prev) (prev :: lq)) as Hprevchain.
      { split; [reflexivity|]. split; [exact Hget|]. rewrite Eq. exact Hlq. }
      apply chain_NoDup, NoDup_cons in Hprevchain as (Hnotin & _).
      exists (new :: lq). split; [reflexivity|]. split; [unfold new; lia|].
      rewrite Hnew. apply (chain_old (heap s)); [exact Hlq| |lia].
      intros l Hl Hin. unfold h3.
      rewrite !next_of_set_next_ne.
      * apply next_of_app. exact Hl.
      * unfold new. lia.
      * intros ->. contradiction.
    + exists [new]. split; [reflexivity|]. split; [unfold new; lia | exact Hnew].
Qed.

Lemma acyclic_pop fuel s s' (r : option loc) :
  acyclic (heap s) -> pop fuel s = Some (s', r) -> acyclic (heap s').
Proof.
  intros Hac. unfold pop.
  destruct (head_ s) as [hd|]; [|intros [= <- _]; exact Hac].
  destruct (tail_ s) as [oldTail|]; [|intros [= <- _]; exact Hac].
  destruct (bool_decide (hd = oldTail) && (length_ s =? 1)); [intros [= <- _]; exact Hac|].
  destruct (pop_scan fuel (heap s) oldTail hd) as [newTail|]; [|discriminate].
  intros [= <- _]. simpl. apply acyclic_set_next; [exact Hac | discriminate].
Qed.

Lemma acyclic_removeTail fuel s s' (r : option loc) :
  acyclic (heap s) -> removeTail fuel s = Some (s', r) -> acyclic (heap s').
Proof.
  intros Hac. unfold removeTail.
  destruct (tail_ s) as [oldTail|]; [|intros [= <- _]; exact Hac].
  destruct (head_ s) as [hd|]; [|intros [= <- _]; exact Hac].
  destruct (removeTail_scan fuel (heap s) oldTail (Some hd)) as [newTail|]; [|discriminate].
  intros [= <- _]. simpl. apply acyclic_set_next; [exact Hac | discriminate].
Qed.

Lemma reachable_acyclic s : reachable s -> acyclic (heap s).
Proof.
  induction 1 as [|d s Hr IH|fuel s s' r Hr IH Hpop|index d s Hr IH|index d s Hr IH
                 |index s Hr IH|s Hr IH|fuel s s' r Hr IH Hrt].
  - intros p Hp. simpl in Hp. lia.
  - apply acyclic_push; [apply reachable_closed; exact Hr | exact IH].
  - exact (acyclic_pop _ _ _ _ IH Hpop).
  - unfold set. destruct (get index s); [|exact IH]. apply acyclic_set_data. exact IH.
  - apply acyclic_insert; [apply reachable_closed; exact Hr | exact IH].
  - rewrite remove_keeps_store. exact IH.
  - unfold removeHead. destruct (head_ s); exact IH.
  - exact (acyclic_removeTail _ _ _ _ IH Hrt).
Qed.

Lemma pop_scan_total h (tl c : loc) ls :
  chain h (Some c) ls -> exists r, pop_scan (Datatypes.length ls) h tl c = Some r.
Proof.
  revert c. induction ls as [|l ls IH]; intros c Hc; [discriminate Hc|].
  destruct Hc as (Heq & _ & Hrest). injection Heq as <-. simpl.
  destruct (next_of h c) as [n|]; [|eauto].
  destruct (decide (n = tl)); [eauto|]. exact (IH _ Hrest).
Qed.

(** X13: in every state the class can reach, the chain from the head is
    finite: [toArray ()] returns an array and [pop ()] returns, each after
    finitely many loop tests. *)
Theorem reachable_toArray_and_pop_return s :
  reachable s ->
  (exists (fuel : nat) vs, forall k, toArray (fuel + k) s = Some vs) /\
  (exists (fuel : nat) r, forall k, pop (fuel + k) s = Some r).
Proof.
  intros Hr. pose proof (reachable_closed _ Hr) as (_ & Hhd & _).
  pose proof (reachable_acyclic _ Hr) as Hac.
  assert (forall hd, head_ s = Some hd -> exists ls, chain (heap s) (Some hd) ls)
    as Hchain by (intros hd Hhd'; apply Hac, Hhd, Hhd').
  split.
  - unfold toArray. destruct (head_ s) as [hd|].
    + destruct (Hchain hd eq_refl) as (ls & Hls).
      destruct (toArray_scan_chain _ _ _ Hls) as (vs & Hvs & _).
      exists (Datatypes.length ls), vs. intros k.
      apply (toArray_scan_mono (Datatypes.length ls)); [exact Hvs | lia].
    + exists O, []. intros k. destruct k; reflexivity.
  - unfold pop. destruct (head_ s) as [hd|]; [|exists O; eauto].
    destruct (tail_ s) as [oldTail|]; [|exists O; eauto].
    destruct (bool_decide (hd = oldTail) && (length_ s =? 1)); [exists O; eauto|].
    destruct (Hchain hd eq_refl) as (ls & Hls).
    destruct (pop_scan_total _ oldTail _ _ Hls) as (newTail & Hscan).
    exists (Datatypes.length ls). eexists. intros k.
    rewrite (pop_scan_mono _ (Datatypes.length ls + k) _ _ _ _ Hscan) by lia.
    reflexivity.
Qed.

(** *** Reading back what was written *)

Lemma models_get s vs (i : nat) v :
  models s vs -> vs !! i = Some v ->
  exists p, get (Z.of_nat i) s = Some p /\ node_data s (Some p) = Some v.
Proof.
  intros Hm Hv. pose proof (models_length _ _ Hm) as Hlen.
  destruct Hm as (ls & Hshape & Hvs).
  pose proof (lookup_lt_Some _ _ _ Hv) as Hi.
  destruct (shape_get s ls (Z.of_nat i) Hshape) as (p & Hget & Hp & _); [lia|].
  rewrite Nat2Z.id in Hp.
  destruct (Forall2_lookup_l _ _ _ _ _ Hvs Hp) as (v0 & Hv0 & Hdata).
  exists p. split; [exact Hget|]. simpl. congruence.
Qed.

(** X14: on a list that holds [vs], after [insert (index, d)] with
    [0 <= index <= length ()], [get (index)] returns a node that carries
    [d], the elements before the index are found where they were and the
    elements from the index on are found one position later. *)
Theorem get_after_insert s vs index d :
  models s vs -> 0 <= index <= length s ->
  let s' := (insert index d s).1 in
  (exists p, get index s' = Some p /\ node_data s' (Some p) = Some d) /\
  (forall (j : nat) v, vs !! j = Some v -> Z.of_nat j < index ->
     exists p, get (Z.of_nat j) s' = Some p /\ node_data s' (Some p) = Some v) /\
  (forall (j : nat) v, vs !! j = Some v -> index <= Z.of_nat j ->
     exists p, get (Z.of_nat j + 1) s' = Some p /\ node_data s' (Some p) = Some v).
Proof.
  intros Hm Hidx s'. pose proof (models_length _ _ Hm) as Hlen. unfold length in *.
  destruct (models_insert s vs index d Hm Hidx) as (_ & Hm'). fold s' in Hm'.
  set (i := Z.to_nat index) in *.
  assert (Datatypes.length (take i vs) = i) as Htake
    by (apply length_take_le; unfold i; lia).
  split; [|split].
  - replace index with (Z.of_nat i) by (unfold i; lia).
    apply (models_get _ _ _ _ Hm').
    rewrite lookup_app_r by lia. rewrite Htake, Nat.sub_diag. reflexivity.
  - intros j v Hv Hj. apply (models_get _ _ _ _ Hm').
    rewrite lookup_app_l by lia. rewrite lookup_take_lt by (unfold i; lia). exact Hv.
  - intros j v Hv Hj.
    replace (Z.of_nat j + 1) with (Z.of_nat (S j)) by lia.
    apply (models_get _ _ _ _ Hm').
    rewrite lookup_app_r by lia. rewrite Htake.
    replace (S j - i)%nat with (S (j - i)) by (unfold i; lia). simpl.
    rewrite lookup_drop. replace (i + (j - i))%nat with j by (unfold i; lia). exact Hv.
Qed.

Lemma get_scan_ext (r : nat) h h' (counter : Z) (current : option loc) :
  (forall q, next_of h' q = next_of h q) ->
  get_scan r h' counter current = get_scan r h counter current.
Proof.
  intros Hagree. revert counter current.
  induction r as [|r IH]; intros counter current; [reflexivity|].
  destruct current as [c|]; [|reflexivity]. simpl. rewrite Hagree. apply IH.
Qed.

(** X15: in every state, [set (index, d)] changes no link, no reference of
    the list and no payload but that of the node [get (index)] returns; so
    every [get] finds the same node as before, and after a [set] that
    returned [true] on an allocated node, [get (index)] returns a node that
    carries [d]. *)
Theorem set_changes_one_payload index d s :
  let s' := (set index d s).1 in
  head s' = head s /\ tail s' = tail s /\ length s' = length s /\
  (forall q, next_of (heap s') q = next_of (heap s) q) /\
  (forall j, get j s' = get j s) /\
  (forall q, get index s <> Some q -> data_of (heap s') q = data_of (heap s) q) /\
  (forall p, get index s = Some p -> (p < Datatypes.length (heap s))%nat ->
     (set index d s).2 = true /\ get index s' = Some p /\
     node_data s' (Some p) = Some d).
Proof.
  intros s'.
  assert (head_ s' = head_ s /\ tail_ s' = tail_ s /\ length_ s' = length_ s /\
          forall q, next_of (heap s') q = next_of (heap s) q)
    as (Hhd & Htl & Hlen & Hnext).
  { unfold s', set. destruct (get index s); simpl; [|auto].
    repeat split. intros q. apply next_of_set_data. }
  assert (forall j, get j s' = get j s) as Hget.
  { intros j. unfold get. rewrite Hhd, Hlen.
    rewrite (get_scan_ext _ (heap s) (heap s')) by exact Hnext. reflexivity. }
  split; [exact Hhd|]. split; [exact Htl|]. split; [exact Hlen|].
  split; [exact Hnext|]. split; [exact Hget|]. split.
  - intros q Hq. unfold s', set. destruct (get index s) as [p|]; [|reflexivity].
    simpl. apply data_of_set_data_ne. congruence.
  - intros p Hp Halloc. rewrite Hget. split; [|split; [exact Hp|]].
    + unfold set. rewrite Hp. reflexivity.
    + unfold s', set. rewrite Hp. simpl. apply data_of_set_data_eq. exact Halloc.
Qed.

(** *** What the other operations leave alone *)

(** X16: no operation other than [set] changes the payload of a node that
    exists: [push], [insert], [remove], [removeHead], and [pop] and
    [removeTail] when they return, leave the data of every allocated node
    as it was. *)
Theorem payloads_are_stable s p :
  (p < Datatypes.length (heap s))%nat ->
  (forall d, data_of (heap (push d s)) p = data_of (heap s) p) /\
  (forall index d, data_of (heap (insert index d s).1) p = data_of (heap s) p) /\
  (forall index, data_of (heap (remove index s).1) p = data_of (heap s) p) /\
  data_of (heap (removeHead s).1) p = data_of (heap s) p /\
  (forall fuel s' r, pop fuel s = Some (s', r) ->
     data_of (heap s') p = data_of (heap s) p) /\
  (forall fuel s' r, removeTail fuel s = Some (s', r) ->
     data_of (heap s') p = data_of (heap s) p).
Proof.
  intros Hp.
  split; [intros d; apply data_of_push_old; exact Hp|].
  split.
  { intros index d. unfold insert.
    destruct ((index <? 0) || (length_ s <? index)); [reflexivity|].
    destruct (index =? length_ s); [apply data_of_push_old; exact Hp|].
    destruct (index =? 0); [simpl; rewrite data_of_set_next; apply data_of_app; exact Hp|].
    destruct (get (index - 1) (with_node d s)); simpl;
      rewrite ?data_of_set_next; apply data_of_app; exact Hp. }
  split; [intros index; rewrite remove_keeps_store; reflexivity|].
  split; [unfold removeHead; destruct (head_ s); reflexivity|].
  split.
  - intros fuel s' r. unfold pop.
    destruct (head_ s) as [hd|]; [|intros [= <- _]; reflexivity].
    destruct (tail_ s) as [oldTail|]; [|intros [= <- _]; reflexivity].
    destruct (bool_decide (hd = oldTail) && (length_ s =? 1));
      [intros [= <- _]; reflexivity|].
    destruct (pop_scan fuel (heap s) oldTail hd); [|discriminate].
    intros [= <- _]. simpl. apply data_of_set_next.
  - intros fuel s' r. unfold removeTail.
    destruct (tail_ s) as [oldTail|]; [|intros [= <- _]; reflexivity].
    destruct (head_ s) as [hd|]; [|intros [= <- _]; reflexivity].
    destruct (removeTail_scan fuel (heap s) oldTail (Some hd)); [|discriminate].
    intros [= <- _]. simpl. apply data_of_set_next.
Qed.

(** *** When [removeTail] returns *)

Lemma removeTail_scan_found (fuel : nat) h (tl c r : loc) ls :
  chain h (Some c) ls -> removeTail_scan fuel h tl (Some c) = Some r ->
  r ∈ ls /\ next_of h r = Some tl.
Proof.
  revert c ls. induction fuel as [|f IH]; intros c ls Hc Hrun; [discriminate|].
  destruct ls as [|l ls]; [discriminate Hc|].
  destruct Hc as (Heq & _ & Hrest). injection Heq as <-.
  simpl in Hrun. destruct (decide (next_of h c = Some tl)) as [Hyes|Hno].
  - injection Hrun as <-. split; [left | exact Hyes].
  - destruct (next_of h c) as [c'|].
    + destruct (IH _ _ Hrest Hrun) as (Hin & Hnext). split; [right; exact Hin | exact Hnext].
    + rewrite removeTail_scan_null in Hrun. discriminate.
Qed.

Lemma removeTail_scan_finds h (tl : loc) (c : option loc) ls :
  chain h c ls -> (exists l, l ∈ ls /\ next_of h l = Some tl) ->
  exists r, removeTail_scan (Datatypes.length ls) h tl c = Some r.
Proof.
  revert c. induction ls as [|l0 ls IH]; intros c Hc (l & Hin & Hl).
  - inversion Hin.
  - destruct Hc as (-> & _ & Hrest). simpl.
    destruct (decide (next_of h l0 = Some tl)) as [Hyes|Hno]; [eauto|].
    apply IH; [exact Hrest|]. exists l. split; [|exact Hl].
    apply elem_of_cons in Hin as [->|Hin]; [contradiction | exact Hin].
Qed.

(** X17: when head and tail are present and the chain from the head is
    [ls], [removeTail ()] returns exactly when some node of the chain has the
    tail as its successor; when none has (a one-element list, or a tail that
    is no longer linked), it never leaves its scan. *)
Theorem removeTail_returns_iff s ls (hd tl : loc) :
  chain (heap s) (head_ s) ls -> head_ s = Some hd -> tail_ s = Some tl ->
  ((exists fuel r, removeTail fuel s = Some r) <->
   (exists l, l ∈ ls /\ next_of (heap s) l = Some tl)) /\
  ((forall l, l ∈ ls -> next_of (heap s) l <> Some tl) ->
   forall fuel, removeTail fuel s = None).
Proof.
  intros Hc Hhd Htl.
  assert (forall fuel r, removeTail fuel s = Some r ->
            exists l, l ∈ ls /\ next_of (heap s) l = Some tl) as Hsound.
  { intros fuel r. unfold removeTail. rewrite Htl, Hhd.
    destruct (removeTail_scan fuel (heap s) tl (Some hd)) as [newTail|] eqn:E;
      [|discriminate].
    intros _. rewrite Hhd in Hc. exists newTail.
    exact (removeTail_scan_found _ _ _ _ _ _ Hc E). }
  split; [split|].
  - intros (fuel & r & Hrun). exact (Hsound fuel r Hrun).
  - intros Hex. destruct (removeTail_scan_finds _ tl _ _ Hc Hex) as (newTail & Hscan).
    exists (Datatypes.length ls). unfold removeTail. rewrite Htl, Hhd.
    rewrite Hhd in Hscan. rewrite Hscan. eauto.
  - intros Hnone fuel. destruct (removeTail fuel s) as [r|] eqn:E; [|reflexivity].
    destruct (Hsound fuel r E) as (l & Hin & Hl). destruct (Hnone l Hin Hl).
Qed.

(** *** [pop] and a following [push] *)

(** X18: on a list that holds at least two elements [vs ++ [v'; v]], a
    [push (x)] that follows [pop ()] links the new node behind the popped
    one: [toArray ()] still returns [vs ++ [v']] without [x], while
    [length ()] is back to what it was before the pop, and [get] at the last
    index in range finds no node. *)
Theorem push_after_pop_is_not_linked s vs v' v x :
  models s (vs ++ [v'; v]) ->
  exists s' p,
    (forall k, pop (S (Datatypes.length vs) + k) s = Some (s', Some p)) /\
    (forall k, toArray (S (Datatypes.length vs) + k) (push x s') = Some (vs ++ [v'])) /\
    length (push x s') = length s /\
    get (length s - 1) (push x s') = None.
Proof.
  intros Hm. pose proof (models_length _ _ Hm) as Hlens.
  rewrite length_app in Hlens. simpl in Hlens.
  destruct (models_back _ _ _ _ Hm)
    as (ls & prev & tl & first & Hshape & Hfirst & Htl & Hvs & Hdata & Hlenls).
  destruct (cut_before_tail _ _ _ _ _ Hshape Hvs) as (Hc' & Hnd' & Hlen' & Hvs' & Hne).
  pose proof Hshape as (Hc & Hnd & Hlen & _).
  set (h' := set_next (heap s) prev None) in *.
  set (s' := mkList h' (head_ s) (tail_ s) (length_ s - 1)).
  set (hp := set_next (h' ++ [mkNode x None]) tl (Some (Datatypes.length h'))).
  assert (push x s' = mkList hp (head_ s) (Some (Datatypes.length h')) (length_ s - 1 + 1))
    as Hpush.
  { unfold push, s'. simpl. rewrite Hfirst, Htl. reflexivity. }
  assert (forall l, l ∈ ls ++ [prev] -> l <> tl) as Hnottl.
  { intros l Hin ->. change [prev; tl] with ([prev] ++ [tl]) in Hnd.
    rewrite app_assoc in Hnd. apply NoDup_app in Hnd as (_ & Hdisj & _).
    apply (Hdisj tl Hin). left. }
  assert (chain hp (head_ s) (ls ++ [prev])) as Hcp.
  { apply (chain_old h'); [exact Hc'| |unfold hp; rewrite length_set_next, length_app; lia].
    intros l Hl Hin. unfold hp.
    rewrite next_of_set_next_ne by (intros <-; exact (Hnottl _ Hin eq_refl)).
    apply next_of_app. exact Hl. }
  assert (contents hp (ls ++ [prev]) (vs ++ [v'])) as Hvp.
  { apply (contents_ext h'); [exact Hvs'|].
    intros l Hin. unfold hp. rewrite data_of_set_next. apply data_of_app.
    exact (chain_allocated _ _ _ Hc' _ Hin). }
  assert (Datatypes.length (ls ++ [prev]) = S (Datatypes.length vs)) as Hlenp
    by (rewrite length_app; simpl; lia).
  exists s', tl. split; [|split; [|split]].
  - intros k. unfold pop. rewrite Hfirst, Htl.
    assert (bool_decide (first = tl) && (length_ s =? 1) = false) as ->.
    { apply andb_false_intro2. apply Z.eqb_neq. lia. }
    rewrite Hfirst in Hc.
    rewrite (pop_scan_mono (S (Datatypes.length ls)) _ _ _ _ prev).
    + unfold s', h'. rewrite Hfirst, Htl. reflexivity.
    + apply pop_scan_chain; assumption.
    + lia.
  - intros k. rewrite Hpush, <- Hlenp. apply toArray_mono. unfold toArray. simpl.
    apply toArray_scan_contents; assumption.
  - rewrite Hpush. unfold length. simpl. lia.
  - rewrite Hpush. unfold get, length. simpl.
    destruct (length_ s - 1 <? 0) eqn:E1; [apply Z.ltb_lt in E1; lia|].
    destruct (length_ s - 1 + 1 <=? length_ s - 1) eqn:E2; [apply Z.leb_le in E2; lia|].
    simpl.
    rewrite (get_scan_chain _ _ (ls ++ [prev])); [|exact Hcp|lia].
    rewrite Z.add_0_l, Z2Nat.id by lia. rewrite Z.eqb_refl. simpl.
    apply lookup_ge_None_2. lia.
Qed.

(** X19: on a list that holds [vs], [pop ()] right after [push (v)] returns
    (within [length ()] loop tests) the node that carries [v], and
    [toArray ()] returns [vs] again. *)
Theorem pop_after_push_restores s vs v :
  models s vs ->
  exists s' r,
    (forall k, pop (Datatypes.length vs + k) (push v s) = Some (s', r)) /\
    node_data s' r = Some v /\
    forall k, toArray (Datatypes.length vs + k) s' = Some vs.
Proof.
  intros Hm. pose proof (models_length _ _ Hm) as Hlen.
  destruct (pop_undoes_push_well_formed v s (models_well_formed _ _ Hm))
    as (s' & r & Hpop & Hdata & Hsame).
  rewrite Hlen, Nat2Z.id in Hpop.
  exists s', r. split; [exact Hpop|]. split; [exact Hdata|].
  intros k. rewrite Hsame. apply models_toArray. exact Hm.
Qed.

(** *** The empty list and the one-element list *)

(** X20: on a list that holds nothing, [pop], [removeHead] and
    [removeTail] return no node, [get] and [remove] return no node for every
    index, [set] returns [false] for every index and [insert] returns
    [false] for every index other than 0; none of them changes the list. *)
Theorem empty_list_operations s (fuel : nat) index d :
  models s [] ->
  pop fuel s = Some (s, None) /\
  removeHead s = (s, None) /\
  removeTail fuel s = Some (s, None) /\
  get index s = None /\
  remove index s = (s, None) /\
  set index d s = (s, false) /\
  (index <> 0 -> insert index d s = (s, false)).
Proof.
  intros Hm. pose proof (models_length _ _ Hm) as Hlen.
  change (length_ s = 0) in Hlen.
  destruct Hm as (ls & (Hc & _ & _ & Htl) & Hvs).
  apply Forall2_nil_inv_r in Hvs. subst ls. simpl in Hc, Htl.
  assert (get index s = None) as Hget.
  { unfold get. rewrite Hlen.
    destruct (index <? 0) eqn:E1; [reflexivity | apply Z.ltb_ge in E1].
    destruct (0 <=? index) eqn:E2; [reflexivity | apply Z.leb_gt in E2; lia]. }
  split; [unfold pop; rewrite Hc; reflexivity|].
  split; [unfold removeHead; rewrite Hc; reflexivity|].
  split; [unfold removeTail; rewrite Htl; reflexivity|].
  split; [exact Hget|].
  split; [|split].
  - unfold remove. rewrite Hlen.
    destruct (index <? 0) eqn:E1; [reflexivity | apply Z.ltb_ge in E1].
    destruct (0 <=? index) eqn:E2; [reflexivity | apply Z.leb_gt in E2; lia].
  - unfold set. rewrite Hget. reflexivity.
  - intros Hne. unfold insert. rewrite Hlen.
    destruct (index <? 0) eqn:E1; [reflexivity | apply Z.ltb_ge in E1].
    destruct (0 <? index) eqn:E2; [reflexivity | apply Z.ltb_ge in E2; lia].
Qed.

Lemma models_single s v :
  models s [v] ->
  exists p, head_ s = Some p /\ tail_ s = Some p /\ length_ s = 1 /\
            (p < Datatypes.length (heap s))%nat /\
            next_of (heap s) p = None /\ data_of (heap s) p = Some v.
Proof.
  intros Hm. pose proof (models_length _ _ Hm) as Hlen. simpl in Hlen.
  destruct (models_front _ _ _ Hm) as (p & ls & Hshape & Hp & Hvs & Hhd & Hrest).
  apply Forall2_nil_inv_r in Hvs. subst ls.
  destruct Hshape as ((_ & Hlt & _) & _ & _ & Htl).
  exists p. simpl in Hrest, Htl. auto 10.
Qed.

(** X21: when the only element of a list is removed with [remove (0)],
    the tail still refers to the removed node, but the list is usable: a
    following [push (x)] gives a list that satisfies the data-model
    invariants and holds exactly [x]. *)
Theorem push_after_remove_0_of_single s v x :
  models s [v] ->
  tail (remove 0 s).1 = head s /\
  head (remove 0 s).1 = None /\
  models (push x (remove 0 s).1) [x].
Proof.
  intros Hm. destruct (models_single _ _ Hm) as (p & Hhd & Htl & Hlen & Hlt & Hnext & _).
  assert (remove 0 s = (mkList (heap s) None (Some p) 0, Some p)) as Hrun.
  { unfold remove. rewrite Hlen, Hhd. simpl. rewrite Hnext, Htl. reflexivity. }
  rewrite Hrun. unfold head, tail. simpl.
  split; [symmetry; exact Hhd|]. split; [reflexivity|].
  set (new := Datatypes.length (heap s)).
  exists [new]. unfold push. simpl. fold new. split.
  - split; [|split; [apply NoDup_singleton | split; reflexivity]].
    simpl. split; [reflexivity|]. rewrite length_set_next, length_app. simpl.
    split; [unfold new; lia|].
    rewrite next_of_set_next_ne by (unfold new; lia). apply next_of_new.
  - constructor; [|constructor]. simpl.
    rewrite data_of_set_next. apply data_of_new.
Qed.

(** X22: when the only element [v] of a list is removed with
    [removeHead ()], the removed node stays the head: a following
    [push (x)] links the new node behind it, so [toArray ()] returns
    [v; x] while [length ()] is 1. *)
Theorem push_after_removeHead_of_single s v x :
  models s [v] ->
  let s' := push x (removeHead s).1 in
  (forall k, toArray (2 + k) s' = Some [v; x]) /\
  length s' = 1 /\
  head s' = head s.
Proof.
  intros Hm s'.
  destruct (models_single _ _ Hm) as (p & Hhd & Htl & Hlen & Hlt & Hnext & Hdata).
  assert (removeHead s = (mkList (heap s) (Some p) (Some p) 0, Some p)) as Hrun.
  { unfold removeHead. rewrite Hhd, Hnext, Htl, Hlen. reflexivity. }
  set (new := Datatypes.length (heap s)).
  set (hp := set_next (heap s ++ [mkNode x None]) p (Some new)).
  assert (s' = mkList hp (Some p) (Some new) (0 + 1)) as ->.
  { unfold s'. rewrite Hrun. reflexivity. }
  split; [|split; [reflexivity | symmetry; exact Hhd]].
  intros k. apply (toArray_mono 2). unfold toArray. simpl.
  assert (data_of hp p = Some v) as ->.
  { unfold hp. rewrite data_of_set_next, data_of_app by exact Hlt. exact Hdata. }
  assert (next_of hp p = Some new) as ->.
  { unfold hp. apply next_of_set_next_eq. rewrite length_app. lia. }
  assert (data_of hp new = Some x) as ->.
  { unfold hp. rewrite data_of_set_next. apply data_of_new. }
  assert (next_of hp new = None) as ->.
  { unfold hp. rewrite next_of_set_next_ne by (unfold new; lia). apply next_of_new. }
  reflexivity.
Qed.

End Refinement.

(** ** The refinement theorems on concrete lists *)

Section RefinementWitnesses.

(** Shows [models s vs] for a concrete state from the locations of its
    nodes. *)
Local Ltac models_by ls :=
  exists ls; split;
  [ split; [vm_compute; repeat split; lia
           | split; [compute_done | split; reflexivity]]
  | repeat constructor ].

Lemma push_appends_witness :
  let s : t Z := pushes [1; 2] in
  models s [1; 2] /\ models (push 3 s) [1; 2; 3].
Proof.
  assert (models (pushes [1; 2] : t Z) [1; 2]) as Hm by models_by [0; 1]%nat.
  split; [exact Hm | exact (proj1 (push_appends 3 _ _ Hm))].
Defined.

Lemma get_returns_indexed_node_witness :
  let s : t Z := pushes [1; 2] in
  models s [1; 2] /\ 0 <= 1 < length s /\
  exists p v, get 1 s = Some p /\ node_data s (Some p) = Some v /\
              [1; 2] !! 1%nat = Some v.
Proof.
  assert (models (pushes [1; 2] : t Z) [1; 2]) as Hm by models_by [0; 1]%nat.
  assert (0 <= 1 < length (pushes [1; 2] : t Z)) as Hidx by (change (0 <= 1 < 2); lia).
  split; [exact Hm|]. split; [exact Hidx|].
  exact (proj2 (get_returns_indexed_node _ _ 1 Hm) Hidx).
Defined.

Lemma set_overwrites_element_witness :
  let s : t Z := pushes [1; 2] in
  models s [1; 2] /\ 0 <= 1 < length s /\ models (set 1 9 s).1 [1; 9].
Proof.
  assert (models (pushes [1; 2] : t Z) [1; 2]) as Hm by models_by [0; 1]%nat.
  assert (0 <= 1 < length (pushes [1; 2] : t Z)) as Hidx by (change (0 <= 1 < 2); lia).
  split; [exact Hm|]. split; [exact Hidx|].
  exact (proj1 (proj2 (set_overwrites_element _ _ 1 9 Hm Hidx))).
Defined.

Lemma insert_places_element_witness :
  let s : t Z := pushes [1; 2] in
  models s [1; 2] /\ 0 <= 1 <= length s /\ models (insert 1 9 s).1 [1; 9; 2].
Proof.
  assert (models (pushes [1; 2] : t Z) [1; 2]) as Hm by models_by [0; 1]%nat.
  assert (0 <= 1 <= length (pushes [1; 2] : t Z)) as Hidx by (change (0 <= 1 <= 2); lia).
  split; [exact Hm|]. split; [exact Hidx|].
  exact (proj1 (proj2 (insert_places_element _ _ 1 9 Hm Hidx))).
Defined.

Lemma remove_0_drops_first_witness :
  let s : t Z := pushes [1; 2] in
  models s [1; 2] /\ forall k, toArray (1 + k) (remove 0 s).1 = Some [2].
Proof.
  assert (models (pushes [1; 2] : t Z) [1; 2]) as Hm by models_by [0; 1]%nat.
  split; [exact Hm|].
  destruct (remove_0_drops_first _ 1 [2] Hm) as (p & _ & _ & _ & Hread & _).
  exact Hread.
Defined.

Lemma removeHead_drops_first_witness :
  let s : t Z := pushes [1; 2] in
  models s [1; 2] /\ removeHead s = remove 0 s /\ models (removeHead s).1 [2].
Proof.
  assert (models (pushes [1; 2] : t Z) [1; 2]) as Hm by models_by [0; 1]%nat.
  destruct (removeHead_drops_first _ 1 2 [] Hm) as (Hsame & _ & Hm' & _).
  split; [exact Hm|]. split; [exact Hsame | exact Hm'].
Defined.

Lemma remove_positive_only_decrements_witness :
  let s : t Z := pushes [1; 2; 3] in
  models s [1; 2; 3] /\ 0 < 1 < length s /\
  forall k, toArray (3 + k) (remove 1 s).1 = Some [1; 2; 3].
Proof.
  assert (models (pushes [1; 2; 3] : t Z) [1; 2; 3]) as Hm by models_by [0; 1; 2]%nat.
  assert (0 < 1 < length (pushes [1; 2; 3] : t Z)) as Hidx by (change (0 < 1 < 3); lia).
  split; [exact Hm|]. split; [exact Hidx|].
  exact (proj2 (proj2 (remove_positive_only_decrements _ _ 1 Hm Hidx))).
Defined.

Lemma removeTail_drops_last_witness :
  let s : t Z := pushes [1; 2; 3] in
  models s [1; 2; 3] /\
  exists s' p, removeTail 2 s = Some (s', Some p) /\ models s' [1; 2].
Proof.
  assert (models (pushes [1; 2; 3] : t Z) [1; 2; 3]) as Hm by models_by [0; 1; 2]%nat.
  split; [exact Hm|].
  destruct (removeTail_drops_last _ [1] 2 3 Hm) as (s' & p & Hrun & _ & _ & Hm' & _).
  exists s', p. split; [exact (Hrun O) | exact Hm'].
Defined.

Lemma pop_single_empties_witness :
  let s : t Z := pushes [5] in
  models s [5] /\
  exists p, pop 0 s = Some (mkList (heap s) None None 0, Some p).
Proof.
  assert (models (pushes [5] : t Z) [5]) as Hm by models_by [0]%nat.
  split; [exact Hm|].
  destruct (pop_single_empties _ 5 O Hm) as (p & Hrun & _).
  exists p. exact Hrun.
Defined.

Lemma pop_drops_last_keeps_tail_witness :
  let s : t Z := pushes [1; 2; 3] in
  models s [1; 2; 3] /\
  exists s' p, pop 2 s = Some (s', Some p) /\ tail s' = Some p /\ ~ well_formed s'.
Proof.
  assert (models (pushes [1; 2; 3] : t Z) [1; 2; 3]) as Hm by models_by [0; 1; 2]%nat.
  split; [exact Hm|].
  destruct (pop_drops_last_keeps_tail _ [1] 2 3 Hm)
    as (s' & p & Hrun & _ & _ & _ & Htl & _ & Hbad).
  exists s', p. split; [exact (Hrun O)|]. split; [exact Htl | exact Hbad].
Defined.

Lemma insert_0_remove_0_round_trip_witness :
  let s : t Z := pushes [1; 2] in
  models s [1; 2] /\
  forall k, toArray (2 + k) (remove 0 (insert 0 9 s).1).1 = Some [1; 2].
Proof.
  assert (models (pushes [1; 2] : t Z) [1; 2]) as Hm by models_by [0; 1]%nat.
  split; [exact Hm|].
  exact (proj1 (proj2 (insert_0_remove_0_round_trip _ _ 9 Hm))).
Defined.

Lemma reachable_toArray_and_pop_return_witness :
  let s : t Z := push 1 constructor in
  reachable s /\ exists (fuel : nat) vs, forall k, toArray (fuel + k) s = Some vs.
Proof.
  assert (reachable (push 1 constructor : t Z)) as Hr
    by (apply reach_push, reach_constructor).
  split; [exact Hr|].
  exact (proj1 (reachable_toArray_and_pop_return _ Hr)).
Defined.

Lemma get_after_insert_witness :
  let s : t Z := pushes [1; 2] in
  models s [1; 2] /\ 0 <= 1 <= length s /\
  exists p, get 1 (insert 1 9 s).1 = Some p /\
            node_data (insert 1 9 s).1 (Some p) = Some 9.
Proof.
  assert (models (pushes [1; 2] : t Z) [1; 2]) as Hm by models_by [0; 1]%nat.
  assert (0 <= 1 <= length (pushes [1; 2] : t Z)) as Hidx by (change (0 <= 1 <= 2); lia).
  split; [exact Hm|]. split; [exact Hidx|].
  exact (proj1 (get_after_insert _ _ 1 9 Hm Hidx)).
Defined.

Lemma set_changes_one_payload_witness :
  let s : t Z := pushes [1; 2] in
  get 1 s = Some 1%nat /\ (1 < Datatypes.length (heap s))%nat /\
  (set 1 9 s).2 = true /\ node_data (set 1 9 s).1 (Some 1%nat) = Some 9.
Proof.
  assert (get 1 (pushes [1; 2] : t Z) = Some 1%nat) as Hget by reflexivity.
  assert (Nat.lt 1 (Datatypes.length (heap (pushes [1; 2] : t Z)))) as Hlt
    by (vm_compute; lia).
  destruct (set_changes_one_payload 1 9 (pushes [1; 2] : t Z))
    as (_ & _ & _ & _ & _ & _ & Hwrite).
  destruct (Hwrite 1%nat Hget Hlt) as (Htrue & _ & Hdata).
  split; [exact Hget|]. split; [exact Hlt|]. split; [exact Htrue | exact Hdata].
Defined.

Lemma payloads_are_stable_witness :
  let s : t Z := pushes [1; 2] in
  (0 < Datatypes.length (heap s))%nat /\
  data_of (heap (push 9 s)) O = data_of (heap s) O.
Proof.
  assert (Nat.lt 0 (Datatypes.length (heap (pushes [1; 2] : t Z)))) as Hlt
    by (vm_compute; lia).
  split; [exact Hlt|].
  exact (proj1 (payloads_are_stable _ O Hlt) 9).
Defined.

Lemma removeTail_returns_iff_witness :
  let s : t Z := pushes [1; 2] in
  chain (heap s) (head_ s) [0; 1]%nat /\ head_ s = Some O /\ tail_ s = Some 1%nat /\
  exists fuel r, removeTail fuel s = Some r.
Proof.
  assert (chain (heap (pushes [1; 2] : t Z)) (head_ (pushes [1; 2])) [0; 1]%nat) as Hc
    by (vm_compute; repeat split; lia).
  split; [exact Hc|]. split; [reflexivity|]. split; [reflexivity|].
  apply (proj1 (removeTail_returns_iff _ _ O 1%nat Hc eq_refl eq_refl)).
  exists O. split; [left | reflexivity].
Defined.

Lemma push_after_pop_is_not_linked_witness :
  let s : t Z := pushes [1; 2; 3] in
  models s [1; 2; 3] /\
  exists s' p, pop 2 s = Some (s', Some p) /\
               (forall k, toArray (2 + k) (push 9 s') = Some [1; 2]) /\
               length (push 9 s') = length s.
Proof.
  assert (models (pushes [1; 2; 3] : t Z) [1; 2; 3]) as Hm by models_by [0; 1; 2]%nat.
  split; [exact Hm|].
  destruct (push_after_pop_is_not_linked _ [1] 2 3 9 Hm)
    as (s' & p & Hrun & Hread & Hlen & _).
  exists s', p. split; [exact (Hrun O)|]. split; [exact Hread | exact Hlen].
Defined.

Lemma pop_after_push_restores_witness :
  let s : t Z := pushes [1; 2] in
  models s [1; 2] /\
  exists s' r, pop 2 (push 9 s) = Some (s', r) /\ node_data s' r = Some 9 /\
               forall k, toArray (2 + k) s' = Some [1; 2].
Proof.
  assert (models (pushes [1; 2] : t Z) [1; 2]) as Hm by models_by [0; 1]%nat.
  split; [exact Hm|].
  destruct (pop_after_push_restores _ _ 9 Hm) as (s' & r & Hrun & Hdata & Hread).
  exists s', r. split; [exact (Hrun O)|]. split; [exact Hdata | exact Hread].
Defined.

Lemma empty_list_operations_witness :
  models (constructor : t Z) [] /\
  pop 3 (constructor : t Z) = Some (constructor, None) /\
  set 0 7 (constructor : t Z) = (constructor, false).
Proof.
  assert (models (constructor : t Z) []) as Hm by models_by (@nil nat).
  destruct (empty_list_operations _ 3 0 7 Hm) as (Hpop & _ & _ & _ & _ & Hset & _).
  split; [exact Hm|]. split; [exact Hpop | exact Hset].
Defined.

Lemma push_after_remove_0_of_single_witness :
  let s : t Z := pushes [5] in
  models s [5] /\ models (push 9 (remove 0 s).1) [9].
Proof.
  assert (models (pushes [5] : t Z) [5]) as Hm by models_by [0]%nat.
  split; [exact Hm|].
  exact (proj2 (proj2 (push_after_remove_0_of_single _ 5 9 Hm))).
Defined.

Lemma push_after_removeHead_of_single_witness :
  let s : t Z := pushes [5] in
  models s [5] /\
  (forall k, toArray (2 + k) (push 9 (removeHead s).1) = Some [5; 9]) /\
  length (push 9 (removeHead s).1) = 1.
Proof.
  assert (models (pushes [5] : t Z) [5]) as Hm by models_by [0]%nat.
  destruct (push_after_removeHead_of_single _ 5 9 Hm) as (Hread & Hlen & _).
  split; [exact Hm|]. split; [exact Hread | exact Hlen].
Defined.

End RefinementWitnesses.
End SinglyLinkedList.
